(** * The leveled JSON logger of blog-service (package [logger])

    A shallow embedding of [pkg/logger]: the [Logger] struct, its [With*]
    derivation methods, the JSON record construction and the emission
    through the standard library's line writer.

    Go values that are references (the [*Logger] pointers, the [Fields]
    maps, the backing arrays of [[]string] slices, the [*log.Logger] and
    the [io.Writer] behind it) live in an explicit heap, one store per
    kind of object, so that a struct copy [nl := *l] copies references
    and not the objects behind them, as Go does. *)

From stdpp Require Import gmap strings list fin_maps pretty.
From Stdlib Require Import ZArith Ascii ssreflect.

#[local] Set Warnings "-rewrite-rw,-register-all".

Local Open Scope Z_scope.

(** ** Data model *)

Abbreviation loc := positive (only parsing).

(** A [[]string] slice header: nil, or a backing array and a length. *)
Inductive slice :=
| SNil
| SRef (a : loc) (n : nat).

(** The dynamic values an [interface{}] holds in this development. [VChan]
    stands for the values [encoding/json] has no representation for
    (channels, functions, complex numbers). *)
Inductive value :=
| VNil
| VBool (b : bool)
| VInt (n : Z)
| VString (s : string)
| VStrings (s : slice)
| VList (vs : list value)
| VChan.

(** [type Fields map[string]interface{}]: the contents of one map object. *)
Abbreviation Fields := (gmap string value) (only parsing).

(** [type Level int8] and its six constants. *)
Abbreviation Level := Z (only parsing).

Definition LevelDebug : Level := 0.
Definition LevelInfo : Level := 1.
Definition LevelWarn : Level := 2.
Definition LevelError : Level := 3.
Definition LevelFatal : Level := 4.
Definition LevelPanic : Level := 5.

Definition Level_String (l : Level) : string :=
  if bool_decide (l = LevelDebug) then "debug"
  else if bool_decide (l = LevelInfo) then "info"
  else if bool_decide (l = LevelWarn) then "warn"
  else if bool_decide (l = LevelError) then "error"
  else if bool_decide (l = LevelFatal) then "fatal"
  else if bool_decide (l = LevelPanic) then "panic"
  else "".

(** The six defined severities. *)
Definition defined_level (l : Level) : Prop := 0 ≤ l ≤ 5.

(** [type Logger struct]. [ctx] is an opaque handle, never inspected. *)
Record Logger := mkLogger {
  newLogger : option loc;
  ctx : option Z;
  level : Level;
  fields : option loc;
  callers : slice
}.

(** The part of [log.Logger] that [Print] reads. *)
Record StdLogger := mkStdLogger {
  out : loc;
  prefix : string;
  flag : Z
}.

(** The heap. [sinks] records, for every writer, the byte strings it has
    received, one entry per [Write] call, oldest first. *)
Record heap := mkHeap {
  loggers : gmap loc Logger;
  stdlogs : gmap loc StdLogger;
  maps : gmap loc (gmap string value);
  arrays : gmap loc (list string);
  sinks : gmap loc (list string)
}.

Definition set_loggers (f : gmap loc Logger → gmap loc Logger) (h : heap) : heap :=
  mkHeap (f (loggers h)) (stdlogs h) (maps h) (arrays h) (sinks h).
Definition set_stdlogs (f : gmap loc StdLogger → gmap loc StdLogger) (h : heap) : heap :=
  mkHeap (loggers h) (f (stdlogs h)) (maps h) (arrays h) (sinks h).
Definition set_maps (f : gmap loc (gmap string value) → gmap loc (gmap string value))
    (h : heap) : heap :=
  mkHeap (loggers h) (stdlogs h) (f (maps h)) (arrays h) (sinks h).
Definition set_arrays (f : gmap loc (list string) → gmap loc (list string)) (h : heap) : heap :=
  mkHeap (loggers h) (stdlogs h) (maps h) (f (arrays h)) (sinks h).
Definition set_sinks (f : gmap loc (list string) → gmap loc (list string)) (h : heap) : heap :=
  mkHeap (loggers h) (stdlogs h) (maps h) (arrays h) (f (sinks h)).

(** What a slice shows: the first [n] cells of its backing array. *)
Definition slice_view (arrs : gmap loc (list string)) (s : slice) : list string :=
  match s with
  | SNil => []
  | SRef a n => take n (default [] (arrs !! a))
  end.

(** What a [Fields] reference shows; [len] and [range] of a nil map see an
    empty map. *)
Definition map_view (h : heap) (m : option loc) : gmap string value :=
  match m with
  | None => ∅
  | Some a => default ∅ (maps h !! a)
  end.

(** The field set and the caller sequence visible through a [*Logger]. *)
Definition field_set (h : heap) (l : loc) : gmap string value :=
  match loggers h !! l with
  | Some L => map_view h (fields L)
  | None => ∅
  end.

Definition caller_seq (h : heap) (l : loc) : list string :=
  match loggers h !! l with
  | Some L => slice_view (arrays h) (callers L)
  | None => []
  end.

(** ** Computations on the heap

    A method call either returns, or panics (a nil dereference, an
    assignment to an entry of a nil map), or ends the process. *)
Inductive outcome (A : Type) :=
| Done (a : A) (h : heap)
| Panics
| Exits (code : Z).
Arguments Done {A} a h.
Arguments Panics {A}.
Arguments Exits {A} code.

Definition M (A : Type) : Type := heap → outcome A.

#[global] Instance M_ret : MRet M := λ A a h, Done a h.

#[global] Instance M_bind : MBind M := λ A B k c h,
  match c h with
  | Done a h' => k a h'
  | Panics => Panics
  | Exits code => Exits code
  end.

Definition panic {A} : M A := λ _, Panics.

(** [*l] *)
Definition load (l : loc) : M Logger :=
  λ h, match loggers h !! l with
       | Some L => Done L h
       | None => Panics
       end.

(** [&nl] for a struct value that escapes: a fresh cell. *)
Definition alloc (L : Logger) : M loc :=
  λ h, let a := fresh (dom (loggers h)) in Done a (set_loggers (insert a L) h).

(** [ll.x = ...] through a pointer. *)
Definition update (l : loc) (f : Logger → Logger) : M unit :=
  λ h, match loggers h !! l with
       | Some L => Done tt (set_loggers (insert l (f L)) h)
       | None => Panics
       end.

(** [make(Fields)] *)
Definition make_map : M loc :=
  λ h, let a := fresh (dom (maps h)) in Done a (set_maps (insert a ∅) h).

(** [m[k] = v] *)
Definition map_assign (m : option loc) (k : string) (v : value) : M unit :=
  match m with
  | None => panic
  | Some a => λ h, Done tt (set_maps (insert a (<[k:=v]> (map_view h m))) h)
  end.

(** The backing array of a slice that escapes into a struct. *)
Definition new_array (xs : list string) : M loc :=
  λ h, let a := fresh (dom (arrays h)) in Done a (set_arrays (insert a xs) h).

(** [for k, v := range kvs { body }], in the order of [kvs]. *)
Fixpoint range {A} (kvs : list A) (body : A → M unit) : M unit :=
  match kvs with
  | [] => mret tt
  | kv :: rest => body kv;; range rest body
  end.

(** ** The environment of one call

    What the Go runtime and the clock answer during one method call.
    [stack] is the goroutine's call stack as the runtime's stack walker
    sees it when a [Logger] method calls into it, innermost first:
    position 0 is the runtime entry point itself ([runtime.Caller] or
    [runtime.Callers]), position 1 the [Logger] method, position 2 that
    method's caller, and so on. *)
Record Frame := mkFrame {
  PC : Z;
  File : string;
  Line : Z;
  Function : string
}.

Record Env := mkEnv {
  now : Z;                          (* time.Now().Local().UnixNano() *)
  stack : list Frame;
  FuncForPC : Z → option string;    (* the name of the function owning a pc *)
  log_header : string → Z → string  (* what log.Logger puts before the text,
                                       from its prefix and its flags *)
}.

(** Go's [int] is 64 bits wide here: [skip + 1] wraps. *)
Definition wrap_int (z : Z) : Z := (z + 2 ^ 63) `mod` 2 ^ 64 - 2 ^ 63.

(** [runtime.Caller(skip)]: [skip + 1] frames are passed over, counted
    from the entry point; a count that is not positive passes over none.
    Without a frame the results are the zero values and [ok] is false. *)
Definition runtime_Caller (env : Env) (skip : Z) : Z * string * Z * bool :=
  match stack env !! Z.to_nat (wrap_int (skip + 1)) with
  | Some f => (PC f, File f, Line f, true)
  | None => (0, "", 0, false)
  end.

(** [runtime.Callers(skip, pcs)]: fills [pcs] with the frames after the
    first [skip], as many as fit; the result is the filled part
    [pcs[:depth]]. Program counters are modelled by the frames they
    resolve to. *)
Definition runtime_Callers (env : Env) (skip : Z) (len_pcs : nat) : list Frame :=
  take len_pcs (drop (Z.to_nat skip) (stack env)).

Definition zero_Frame : Frame := mkFrame 0 "" 0 "".

(** [frames.Next()]: the next frame, whether further frames exist after
    it, and the iterator's remaining state. On an exhausted iterator the
    frame is the zero value. *)
Definition Frames_Next (frames : list Frame) : Frame * bool * list Frame :=
  match frames with
  | [] => (zero_Frame, false, [])
  | f :: rest => (f, bool_decide (rest ≠ []), rest)
  end.

(** [f.Name()], which answers the empty string on a nil [*Func]. *)
Definition Func_Name (f : option string) : string := default "" f.

(** [fmt.Sprintf("%s: %d %s", file, line, name)] *)
Definition Sprintf_caller (file : string) (line : Z) (name : string) : string :=
  file +:+ ": " +:+ pretty line +:+ " " +:+ name.

(** ** Construction and derivation *)

(** [log.New(w, prefix, flag)] *)
Definition log_New (w : loc) (prefix : string) (flag : Z) : M loc :=
  λ h, let a := fresh (dom (stdlogs h)) in
       Done a (set_stdlogs (insert a (mkStdLogger w prefix flag)) h).

Definition NewLogger (w : loc) (prefix : string) (flag : Z) : M loc :=
  l ← log_New w prefix flag;
  alloc (mkLogger (Some l) None 0 None SNil).

Definition clone (l : loc) : M loc :=
  nl ← load l;
  alloc nl.

Definition put_level (lvl : Level) (L : Logger) : Logger :=
  mkLogger (newLogger L) (ctx L) lvl (fields L) (callers L).
Definition put_fields (m : option loc) (L : Logger) : Logger :=
  mkLogger (newLogger L) (ctx L) (level L) m (callers L).
Definition put_ctx (c : option Z) (L : Logger) : Logger :=
  mkLogger (newLogger L) c (level L) (fields L) (callers L).
Definition put_callers (s : slice) (L : Logger) : Logger :=
  mkLogger (newLogger L) (ctx L) (level L) (fields L) s.

Definition WithLevel (l : loc) (lvl : Level) : M loc :=
  ll ← clone l;
  update ll (put_level lvl);;
  mret ll.

(** The loop of [WithFields] over the additions, in a given order. *)
Definition WithFields_loop (ll : loc) (kvs : list (string * value)) : M unit :=
  range kvs (λ kv, L ← load ll; map_assign (fields L) kv.1 kv.2).

(** [f] is read only: it is given by its contents. Go ranges over a map in
    an unspecified order; [map_to_list] is one of them, and
    [WithFields_loop_order] shows the others give the same heap. *)
Definition WithFields (l : loc) (f : Fields) : M loc :=
  ll ← clone l;
  L ← load ll;
  (if fields L is None
   then m ← make_map; update ll (put_fields (Some m))
   else mret tt);;
  WithFields_loop ll (map_to_list f);;
  mret ll.

Definition WithContext (l : loc) (c : option Z) : M loc :=
  ll ← clone l;
  update ll (put_ctx c);;
  mret ll.

Definition WithCaller (env : Env) (l : loc) (skip : Z) : M loc :=
  ll ← clone l;
  (let '(pc, file, line, ok) := runtime_Caller env skip in
   if ok
   then
     let f := FuncForPC env pc in
     a ← new_array [Sprintf_caller file line (Func_Name f)];
     update ll (put_callers (SRef a 1))
   else mret tt);;
  mret ll.

(** The loop of [WithCallersFrames]:
    [for frame, more := frames.Next(); more; frame, more = frames.Next()].
    The inner [if !more { break }] is never taken, the loop condition
    having just held. The local slice is a plain list until it is stored
    in the struct. *)
Fixpoint frames_loop (frames : list Frame) (callers : list string) : list string :=
  match frames with
  | [] => callers
  | frame :: rest =>
      if bool_decide (rest ≠ [])
      then frames_loop rest
             (callers ++ [Sprintf_caller (File frame) (Line frame) (Function frame)])
      else callers
  end.

Definition WithCallersFrames (env : Env) (l : loc) : M loc :=
  let maxCallerDepth := 25%nat in
  let minCallerDepth := 1 in
  let callers := [] in
  let pcs := runtime_Callers env minCallerDepth maxCallerDepth in
  let callers := frames_loop pcs callers in
  a ← new_array callers;
  ll ← clone l;
  update ll (put_callers (SRef a (length callers)));;
  mret ll.

(** ** JSON text

    [encoding/json] as far as the record needs it: [null], booleans,
    integers, strings, slices, and a map written with its keys in
    increasing order. A value without a JSON form makes the whole
    serialization fail. Strings are taken to be valid UTF-8; the quote,
    the backslash, the control characters and [<], [>], [&] are escaped. *)
Module json.

Definition quote : ascii := "034"%char.
Definition backslash : ascii := "092"%char.
Definition newline : ascii := "010"%char.

Definition hex_digit (n : N) : ascii :=
  match n with
  | 0%N => "0" | 1%N => "1" | 2%N => "2" | 3%N => "3" | 4%N => "4"
  | 5%N => "5" | 6%N => "6" | 7%N => "7" | 8%N => "8" | 9%N => "9"
  | 10%N => "a" | 11%N => "b" | 12%N => "c" | 13%N => "d" | 14%N => "e"
  | _ => "f"
  end%char.

Definition u00 (c : ascii) : string :=
  let n := N_of_ascii c in
  String backslash
    ("u00" +:+ String (hex_digit (n / 16)) (String (hex_digit (n `mod` 16)) "")).

Definition escape_char (c : ascii) : string :=
  if bool_decide (c = quote) then String backslash (String quote "")
  else if bool_decide (c = backslash) then String backslash (String backslash "")
  else if bool_decide (c = newline) then String backslash "n"
  else if bool_decide (c = "013"%char) then String backslash "r"
  else if bool_decide (c = "009"%char) then String backslash "t"
  else if bool_decide (N_of_ascii c < 32)%N then u00 c
  else if bool_decide (c = "<"%char ∨ c = ">"%char ∨ c = "&"%char) then u00 c
  else String c "".

Fixpoint escape (s : string) : string :=
  match s with
  | EmptyString => ""
  | String c rest => escape_char c +:+ escape rest
  end.

Definition encode_string (s : string) : string :=
  String quote (escape s +:+ String quote "").

Definition encode_array (items : list string) : string :=
  "[" +:+ String.concat "," items +:+ "]".

Fixpoint encode (arrs : gmap loc (list string)) (v : value) : option string :=
  match v with
  | VNil => Some "null"
  | VBool b => Some (if b then "true" else "false")
  | VInt n => Some (pretty n)
  | VString s => Some (encode_string s)
  | VStrings SNil => Some "null"
  | VStrings s => Some (encode_array (encode_string <$> slice_view arrs s))
  | VList vs => items ← mapM (encode arrs) vs; Some (encode_array items)
  | VChan => None
  end.

Fixpoint insert_key (kv : string * value) (l : list (string * value)) :=
  match l with
  | [] => [kv]
  | kv' :: rest =>
      if String.leb kv.1 kv'.1 then kv :: l else kv' :: insert_key kv rest
  end.

Definition sort_keys (l : list (string * value)) : list (string * value) :=
  foldr insert_key [] l.

Definition encode_member (arrs : gmap loc (list string)) (kv : string * value)
    : option string :=
  body ← encode arrs kv.2; Some (encode_string kv.1 +:+ ":" +:+ body).

(** The JSON object for the contents of a map, or nothing when a member
    has no JSON form. *)
Definition encode_object (arrs : gmap loc (list string)) (m : gmap string value)
    : option string :=
  members ← mapM (encode_member arrs) (sort_keys (map_to_list m));
  Some ("{" +:+ String.concat "," members +:+ "}").

(** [json.Marshal] of a map object: the text, or nil with an error. *)
Definition Marshal (data : loc) : M (option string) :=
  λ h, Done (encode_object (arrays h) (map_view h (Some data))) h.

End json.

(** ** Record construction and emission *)

Definition read_map (m : option loc) : M (gmap string value) :=
  λ h, Done (map_view h m) h.

(** The loop of [JSONFormat] over the field set, in a given order. *)
Definition JSONFormat_loop (data : loc) (kvs : list (string * value)) : M unit :=
  range kvs (λ kv,
    d ← read_map (Some data);
    if d !! kv.1 is None then map_assign (Some data) kv.1 kv.2 else mret tt).

Definition JSONFormat (env : Env) (l : loc) (message : string) : M loc :=
  L ← load l;
  data ← make_map;
  map_assign (Some data) "level" (VString (Level_String (level L)));;
  map_assign (Some data) "time" (VInt (now env));;
  map_assign (Some data) "message" (VString message);;
  map_assign (Some data) "callers" (VStrings (callers L));;
  fs ← read_map (fields L);
  (if bool_decide (0 < size fs)%nat
   then JSONFormat_loop data (map_to_list fs)
   else mret tt);;
  mret data.

(** [w.Write(buf)] on the writer behind a [log.Logger]. *)
Definition Writer_Write (w : loc) (buf : string) : M unit :=
  λ h, match sinks h !! w with
       | Some received => Done tt (set_sinks (insert w (received ++ [buf])) h)
       | None => Panics
       end.

Fixpoint ends_with_newline (s : string) : bool :=
  match s with
  | EmptyString => false
  | String c EmptyString => bool_decide (c = json.newline)
  | String _ rest => ends_with_newline rest
  end.

(** The line [log.Logger] writes for a text: header, text, and a newline
    unless the text already ends with one. *)
Definition log_line (env : Env) (sl : StdLogger) (s : string) : string :=
  log_header env (prefix sl) (flag sl) +:+ s
    +:+ (if ends_with_newline s then "" else String json.newline "").

(** [Print(s)] of [log.Logger] for one string argument: one [Write] of
    one line. *)
Definition log_Print (env : Env) (p : option loc) (s : string) : M unit :=
  match p with
  | None => panic
  | Some a =>
      λ h, match stdlogs h !! a with
           | Some sl => Writer_Write (out sl) (log_line env sl s) h
           | None => Panics
           end
  end.

Definition Output (env : Env) (l : loc) (message : string) : M unit :=
  data ← JSONFormat env l message;
  body ← json.Marshal data;
  let content := default "" body in
  L ← load l;
  if bool_decide (level L = LevelDebug) then log_Print env (newLogger L) content
  else if bool_decide (level L = LevelInfo) then log_Print env (newLogger L) content
  else if bool_decide (level L = LevelWarn) then log_Print env (newLogger L) content
  else if bool_decide (level L = LevelError) then log_Print env (newLogger L) content
  else if bool_decide (level L = LevelFatal) then log_Print env (newLogger L) content
  else if bool_decide (level L = LevelPanic) then log_Print env (newLogger L) content
  else mret tt.

(** ** Leveled convenience calls

    [fmt.Sprint] and [fmt.Sprintf] are the standard library's; the calls
    below only pass their result on. *)
Section Leveled.

Variable fmt_Sprint : list value → string.
Variable fmt_Sprintf : string → list value → string.

Definition Debug (env : Env) (l : loc) (v : list value) : M unit :=
  ll ← WithLevel l LevelDebug; Output env ll (fmt_Sprint v).
Definition Debugf (env : Env) (l : loc) (format : string) (v : list value) : M unit :=
  ll ← WithLevel l LevelDebug; Output env ll (fmt_Sprintf format v).

Definition Info (env : Env) (l : loc) (v : list value) : M unit :=
  ll ← WithLevel l LevelInfo; Output env ll (fmt_Sprint v).
Definition Infof (env : Env) (l : loc) (format : string) (v : list value) : M unit :=
  ll ← WithLevel l LevelInfo; Output env ll (fmt_Sprintf format v).

Definition Fatal (env : Env) (l : loc) (v : list value) : M unit :=
  ll ← WithLevel l LevelFatal; Output env ll (fmt_Sprint v).
Definition Fatalf (env : Env) (l : loc) (format : string) (v : list value) : M unit :=
  ll ← WithLevel l LevelFatal; Output env ll (fmt_Sprintf format v).

Definition Warn (env : Env) (l : loc) (v : list value) : M unit :=
  ll ← WithLevel l LevelWarn; Output env ll (fmt_Sprint v).
Definition Warnf (env : Env) (l : loc) (format : string) (v : list value) : M unit :=
  ll ← WithLevel l LevelWarn; Output env ll (fmt_Sprintf format v).

Definition Error (env : Env) (l : loc) (v : list value) : M unit :=
  ll ← WithLevel l LevelError; Output env ll (fmt_Sprint v).
Definition Errorf (env : Env) (l : loc) (format : string) (v : list value) : M unit :=
  ll ← WithLevel l LevelError; Output env ll (fmt_Sprintf format v).

Definition Panic (env : Env) (l : loc) (v : list value) : M unit :=
  ll ← WithLevel l LevelPanic; Output env ll (fmt_Sprint v).
Definition Panicf (env : Env) (l : loc) (format : string) (v : list value) : M unit :=
  ll ← WithLevel l LevelPanic; Output env ll (fmt_Sprintf format v).

End Leveled.

(** ** Auxiliary definitions for the statements *)

(** One [m[k] = v] as a heap transformer, and a whole loop of them. *)
Definition assign (m : loc) (h : heap) (kv : string * value) : heap :=
  set_maps (insert m (<[kv.1:=kv.2]> (map_view h (Some m)))) h.

(** One [if _, ok := m[k]; !ok { m[k] = v }] as a heap transformer. *)
Definition assign_new (m : loc) (h : heap) (kv : string * value) : heap :=
  if map_view h (Some m) !! kv.1 is None then assign m h kv else h.

(** The heaps [h] and [h'] differ in their map objects at most. *)
Definition same_but_maps (h h' : heap) : Prop :=
  loggers h' = loggers h ∧ stdlogs h' = stdlogs h ∧
  arrays h' = arrays h ∧ sinks h' = sinks h.

(** Successive derivations: each [WithFields] is applied to the result of
    the one before. *)
Fixpoint WithFields_chain (l : loc) (fs : list (gmap string value)) : M loc :=
  match fs with
  | [] => mret l
  | f :: rest => ll ← WithFields l f; WithFields_chain ll rest
  end.

(** Any sequence of [WithFields] calls, each on a receiver of its own. *)
Fixpoint WithFields_calls (calls : list (loc * gmap string value)) : M unit :=
  match calls with
  | [] => mret tt
  | (l, f) :: rest => WithFields l f;; WithFields_calls rest
  end.

(** The text one frame of the walk is rendered to. *)
Definition Frame_text (frame : Frame) : string :=
  Sprintf_caller (File frame) (Line frame) (Function frame).

(** The four reserved members of a record, and the record: the reserved
    members laid over the field set. *)
Definition reserved (env : Env) (L : Logger) (message : string) : gmap string value :=
  <["callers" := VStrings (callers L)]>
    (<["message" := VString message]>
       (<["time" := VInt (now env)]>
          (<["level" := VString (Level_String (level L))]> ∅))).

Definition record (env : Env) (h : heap) (L : Logger) (message : string)
    : gmap string value :=
  reserved env L message ∪ map_view h (fields L).

Definition reserved_key (k : string) : Prop :=
  k = "level" ∨ k = "time" ∨ k = "message" ∨ k = "callers".

(** The first two statements of [Output]: the record is built and
    serialized. The result is the JSON text, or nothing when
    [json.Marshal] reports an error. *)
Definition serialize (env : Env) (l : loc) (message : string) : M (option string) :=
  data ← JSONFormat env l message;
  json.Marshal data.

(** The text [Output] gets from [json.Marshal], if any. *)
Definition serialized (env : Env) (l : loc) (message : string) (h : heap)
    : option string :=
  match serialize env l message h with
  | Done body _ => body
  | _ => None
  end.

(** The six severities by name, for statements about all of them. *)
Inductive Severity := SDebug | SInfo | SWarn | SError | SFatal | SPanic.

Definition Severity_level (sev : Severity) : Level :=
  match sev with
  | SDebug => LevelDebug
  | SInfo => LevelInfo
  | SWarn => LevelWarn
  | SError => LevelError
  | SFatal => LevelFatal
  | SPanic => LevelPanic
  end.

(** The variadic and the format-template entry point of a severity. *)
Definition variadic_call (fmt_Sprint : list value → string) (sev : Severity)
    : Env → loc → list value → M unit :=
  match sev with
  | SDebug => Debug fmt_Sprint
  | SInfo => Info fmt_Sprint
  | SWarn => Warn fmt_Sprint
  | SError => Error fmt_Sprint
  | SFatal => Fatal fmt_Sprint
  | SPanic => Panic fmt_Sprint
  end.

Definition format_call (fmt_Sprintf : string → list value → string) (sev : Severity)
    : Env → loc → string → list value → M unit :=
  match sev with
  | SDebug => Debugf fmt_Sprintf
  | SInfo => Infof fmt_Sprintf
  | SWarn => Warnf fmt_Sprintf
  | SError => Errorf fmt_Sprintf
  | SFatal => Fatalf fmt_Sprintf
  | SPanic => Panicf fmt_Sprintf
  end.

(** From the specification's words: derive a configuration with that
    severity level, then emit the message. *)
Definition emit_at_level (lvl : Level) (env : Env) (l : loc) (message : string) : M unit :=
  derived ← WithLevel l lvl;
  Output env derived message.

(** The five derivation methods as data, each with the environment of its
    call, and chains of them: each derivation is applied to the result of
    the one before. *)
Inductive derivation :=
| DLevel (lvl : Level)
| DFields (f : gmap string value)
| DContext (c : option Z)
| DCaller (env : Env) (skip : Z)
| DCallersFrames (env : Env).

Definition derive (d : derivation) (l : loc) : M loc :=
  match d with
  | DLevel lvl => WithLevel l lvl
  | DFields f => WithFields l f
  | DContext c => WithContext l c
  | DCaller env skip => WithCaller env l skip
  | DCallersFrames env => WithCallersFrames env l
  end.

Fixpoint derive_chain (ds : list derivation) (l : loc) : M loc :=
  match ds with
  | [] => mret l
  | d :: rest => ll ← derive d l; derive_chain rest ll
  end.

(** ** A small world for the examples

    One writer that has received nothing yet, a clock reading, and a call
    stack of a handler called from [main]. *)
Definition example_heap : heap :=
  mkHeap ∅ ∅ ∅ ∅ {[ 1%positive := [] ]}.

Definition example_env : Env :=
  mkEnv 1700000000000000000
    [mkFrame 10 "runtime/extern.go" 200 "runtime.Callers";
     mkFrame 20 "pkg/logger/logger.go" 115 "logger.(*Logger).WithCallersFrames";
     mkFrame 30 "main.go" 12 "main.handler";
     mkFrame 40 "main.go" 30 "main.main"]
    (λ pc, if bool_decide (pc = 30) then Some "main.handler" else None)
    (λ prefix _, prefix).

(** The heap after [NewLogger(w, "", 0)]: the root is at address 1. *)
Definition root_heap : heap :=
  match NewLogger 1%positive "" 0 example_heap with
  | Done _ h => h
  | _ => example_heap
  end.

Definition root_Logger : Logger := mkLogger (Some 1%positive) None 0 None SNil.

(** The heap after deriving, from the root, a configuration with the
    field [service]: it is at address 2 and its map at address 1. *)
Definition service_heap : heap :=
  match WithFields 1%positive {[ "service" := VString "auth" ]} root_heap with
  | Done _ h => h
  | _ => root_heap
  end.

Definition service_Logger : Logger :=
  mkLogger (Some 1%positive) None 0 (Some 1%positive) SNil.

(** The heap after deriving, from the root, a configuration with the
    caller one level above the deriving call: it is at address 2. *)
Definition caller_heap : heap :=
  match WithCaller example_env 1%positive 1 root_heap with
  | Done _ h => h
  | _ => root_heap
  end.

Definition caller_Logger : Logger :=
  mkLogger (Some 1%positive) None 0 None (SRef 1%positive 1).

(** The heap after deriving, from the root, a configuration whose field
    set has a member named like a reserved key: it is at address 2. *)
Definition collide_heap : heap :=
  match WithFields 1%positive
          {[ "message" := VString "from the fields"; "service" := VString "auth" ]}
          root_heap with
  | Done _ h => h
  | _ => root_heap
  end.

(** The heap after deriving, from the root, a configuration with a field
    that has no JSON form: it is at address 2. *)
Definition chan_heap : heap :=
  match WithFields 1%positive {[ "done" := VChan ]} root_heap with
  | Done _ h => h
  | _ => root_heap
  end.

(** The heap after deriving, from the root, a configuration whose level
    is none of the six constants: it is at address 2. *)
Definition level9_heap : heap :=
  match WithLevel 1%positive 9 root_heap with
  | Done _ h => h
  | _ => root_heap
  end.

Definition level9_Logger : Logger := mkLogger (Some 1%positive) None 9 None SNil.

Definition root_StdLogger : StdLogger := mkStdLogger 1%positive "" 0.

(** The JSON text of the record for the message [hello] of the
    configuration with the field [service]. *)
Definition hello_body : string :=
  Eval vm_compute in default "" (serialized example_env 2%positive "hello" service_heap).

(** The heap after deriving, from the root, a configuration whose only
    field has no JSON form and is named like a reserved key: it is at
    address 2. *)
Definition chan_message_heap : heap :=
  match WithFields 1%positive {[ "message" := VChan ]} root_heap with
  | Done _ h => h
  | _ => root_heap
  end.

(** * Properties *)

(** ** The heap *)

Ltac run := rewrite /mbind /M_bind /mret /M_ret /=.

Lemma fresh_logger h : loggers h !! fresh (dom (loggers h)) = None.
Proof. apply not_elem_of_dom, is_fresh. Qed.

Lemma fresh_map h : maps h !! fresh (dom (maps h)) = None.
Proof. apply not_elem_of_dom, is_fresh. Qed.

Lemma fresh_array h : arrays h !! fresh (dom (arrays h)) = None.
Proof. apply not_elem_of_dom, is_fresh. Qed.

Lemma allocated_not_fresh {A} (m : gmap loc A) a x : m !! a = Some x → a ≠ fresh (dom m).
Proof.
  intros Ha ->. assert (m !! fresh (dom m) = None) as Hf
    by apply not_elem_of_dom, is_fresh.
  congruence.
Qed.

Lemma set_maps_insert_insert a x y h :
  set_maps (insert a x) (set_maps (insert a y) h) = set_maps (insert a x) h.
Proof. rewrite /set_maps /=. by rewrite insert_insert_eq. Qed.

Lemma set_maps_insert_id a x h : maps h !! a = Some x → set_maps (insert a x) h = h.
Proof. destruct h. rewrite /set_maps /=. intros Ha. f_equal. by apply insert_id. Qed.

Lemma set_loggers_insert_insert a x y h :
  set_loggers (insert a x) (set_loggers (insert a y) h) = set_loggers (insert a x) h.
Proof. rewrite /set_loggers /=. by rewrite insert_insert_eq. Qed.

Lemma put_fields_same L m : fields L = Some m → put_fields (Some m) L = L.
Proof. destruct L; simpl; intros ->; done. Qed.

(** ** Struct copies *)

Lemma clone_Done h l L :
  loggers h !! l = Some L →
  clone l h = Done (fresh (dom (loggers h)))
                   (set_loggers (insert (fresh (dom (loggers h))) L) h).
Proof. intros Hl. rewrite /clone. run. by rewrite /load Hl. Qed.

Lemma clone_Panics h l : loggers h !! l = None → clone l h = Panics.
Proof. intros Hl. rewrite /clone. run. by rewrite /load Hl. Qed.

(** A derivation that copies the struct and then assigns one member. *)
Lemma clone_update_Done h l L (f : Logger → Logger) :
  loggers h !! l = Some L →
  (ll ← clone l; update ll f;; mret ll) h
  = Done (fresh (dom (loggers h)))
         (set_loggers (insert (fresh (dom (loggers h))) (f L)) h).
Proof.
  intros Hl. run. rewrite (clone_Done _ _ L) //.
  rewrite /update /= lookup_insert_eq set_loggers_insert_insert //.
Qed.

Lemma WithLevel_Done h l L lvl :
  loggers h !! l = Some L →
  WithLevel l lvl h
  = Done (fresh (dom (loggers h)))
         (set_loggers (insert (fresh (dom (loggers h))) (put_level lvl L)) h).
Proof. apply clone_update_Done. Qed.

Lemma WithContext_Done h l L c :
  loggers h !! l = Some L →
  WithContext l c h
  = Done (fresh (dom (loggers h)))
         (set_loggers (insert (fresh (dom (loggers h))) (put_ctx c L)) h).
Proof. apply clone_update_Done. Qed.

(** A cell that exists is not the one a later allocation returns. *)
Lemma lookup_after_alloc h l L L' :
  loggers h !! l = Some L →
  loggers (set_loggers (insert (fresh (dom (loggers h))) L') h) !! l = Some L.
Proof.
  intros Hl. rewrite /= lookup_insert_ne //.
  intros E. by apply (allocated_not_fresh _ _ _ Hl).
Qed.

(** ** Field sets *)

Lemma same_but_maps_refl h : same_but_maps h h.
Proof. done. Qed.

Lemma same_but_maps_trans h1 h2 h3 :
  same_but_maps h1 h2 → same_but_maps h2 h3 → same_but_maps h1 h3.
Proof. rewrite /same_but_maps. intros (?&?&?&?) (?&?&?&?). repeat split; congruence. Qed.

Lemma assign_same_but_maps m h kv : same_but_maps h (assign m h kv).
Proof. done. Qed.

Lemma assign_view m h kv :
  map_view (assign m h kv) (Some m) = <[kv.1:=kv.2]> (map_view h (Some m)).
Proof. rewrite /assign /= lookup_insert_eq //. Qed.

Lemma assign_other m h kv a : a ≠ m → maps (assign m h kv) !! a = maps h !! a.
Proof. intros Ha. rewrite /assign /= lookup_insert_ne; [congruence|done]. Qed.

Lemma foldl_assign_same_but_maps m kvs h : same_but_maps h (foldl (assign m) h kvs).
Proof.
  revert h. induction kvs as [|kv kvs IH]; intros h; simpl; [done|].
  eapply same_but_maps_trans; [apply (assign_same_but_maps m h kv) | apply IH].
Qed.

Lemma foldl_assign_other m kvs h a :
  a ≠ m → maps (foldl (assign m) h kvs) !! a = maps h !! a.
Proof.
  intros Ha. revert h. induction kvs as [|kv kvs IH]; intros h; [done|].
  cbn [foldl]. rewrite IH assign_other //.
Qed.

Lemma foldl_assign_view m kvs h :
  map_view (foldl (assign m) h kvs) (Some m)
  = foldl (λ acc kv, <[kv.1:=kv.2]> acc) (map_view h (Some m)) kvs.
Proof.
  revert h. induction kvs as [|kv kvs IH]; intros h; [done|].
  cbn [foldl]. rewrite IH assign_view //.
Qed.

(** Assigning the pairs of a list without repeated keys, in any order,
    lays the list over the map. *)
Lemma foldl_insert_union (kvs : list (string * value)) (base : gmap string value) :
  NoDup kvs.*1 →
  foldl (λ acc kv, <[kv.1:=kv.2]> acc) base kvs = list_to_map kvs ∪ base.
Proof.
  revert base. induction kvs as [|[k v] kvs IH]; intros base Hnd.
  - by rewrite /= left_id_L.
  - apply NoDup_cons in Hnd as [Hk Hnd]. cbn [foldl list_to_map foldr fst snd]. rewrite IH //.
    apply map_eq. intros i. rewrite !lookup_union.
    destruct (decide (i = k)) as [->|Hne].
    + rewrite !lookup_insert_eq.
      rewrite (not_elem_of_list_to_map_1 kvs k) //. by destruct (base !! k).
    + assert (k ≠ i) by congruence. rewrite !lookup_insert_ne //.
Qed.

Lemma assign_in_any_order (f : gmap string value) kvs base :
  kvs ≡ₚ map_to_list f →
  foldl (λ acc kv, <[kv.1:=kv.2]> acc) base kvs = f ∪ base.
Proof.
  intros Hp. assert (NoDup kvs.*1) as Hnd.
  { rewrite Hp. apply NoDup_fst_map_to_list. }
  rewrite foldl_insert_union //.
  rewrite (list_to_map_proper kvs (map_to_list f)) // list_to_map_to_list //.
Qed.

Lemma WithFields_loop_Done kvs h ll L m :
  loggers h !! ll = Some L → fields L = Some m →
  WithFields_loop ll kvs h = Done tt (foldl (assign m) h kvs).
Proof.
  revert h. induction kvs as [|kv kvs IH]; intros h Hl Hm; [done|].
  rewrite /WithFields_loop /=. run. rewrite /load Hl Hm /=.
  by apply IH.
Qed.

(** The order in which the additions are visited does not show. *)
Lemma WithFields_loop_order (f : gmap string value) kvs h ll L m :
  loggers h !! ll = Some L → fields L = Some m →
  kvs ≡ₚ map_to_list f →
  ∃ h', WithFields_loop ll kvs h = Done tt h' ∧
        same_but_maps h h' ∧
        map_view h' (Some m) = f ∪ map_view h (Some m) ∧
        ∀ a, a ≠ m → maps h' !! a = maps h !! a.
Proof.
  intros Hl Hm Hp. exists (foldl (assign m) h kvs).
  split; [by apply (WithFields_loop_Done _ _ _ L)|].
  split; [apply foldl_assign_same_but_maps|].
  split; [|intros a Ha; by apply foldl_assign_other].
  rewrite foldl_assign_view. by apply assign_in_any_order.
Qed.

(** What [WithFields] does, for a nil and for an existing field map
    alike: the derived struct refers to the map [m], which is the
    receiver's own map when it has one and a new one otherwise, and [m]
    then shows the additions laid over what the receiver showed. *)
Lemma WithFields_Done h l L f :
  loggers h !! l = Some L →
  ∃ h', WithFields l f h = Done (fresh (dom (loggers h))) h' ∧
    loggers h'
    = <[fresh (dom (loggers h)) :=
          put_fields (Some (default (fresh (dom (maps h))) (fields L))) L]> (loggers h) ∧
    stdlogs h' = stdlogs h ∧ arrays h' = arrays h ∧ sinks h' = sinks h ∧
    map_view h' (Some (default (fresh (dom (maps h))) (fields L)))
    = f ∪ map_view h (fields L) ∧
    ∀ a, a ≠ default (fresh (dom (maps h))) (fields L) → maps h' !! a = maps h !! a.
Proof.
  intros Hl. rewrite /WithFields. run. rewrite (clone_Done _ _ L) //.
  rewrite /load /= lookup_insert_eq.
  destruct (fields L) as [m|] eqn:Hm; simpl.
  - set (h1 := set_loggers _ h).
    destruct (WithFields_loop_order f (map_to_list f) h1 (fresh (dom (loggers h))) L m)
      as (h' & -> & (Hlog & Hstd & Harr & Hsnk) & Hview & Hother);
      [by rewrite /h1 /= lookup_insert_eq | done | done |].
    exists h'. rewrite Hlog Hstd Harr Hsnk put_fields_same //.
  - rewrite /update /= lookup_insert_eq. 
    set (h2 := set_loggers _ _).
    destruct (WithFields_loop_order f (map_to_list f) h2 (fresh (dom (loggers h)))
                (put_fields (Some (fresh (dom (maps h)))) L) (fresh (dom (maps h))))
      as (h' & -> & (Hlog & Hstd & Harr & Hsnk) & Hview & Hother);
      [by rewrite /h2 /= lookup_insert_eq | done | done |].
    exists h'. rewrite Hlog Hstd Harr Hsnk.
    split; [done|]. split; [by rewrite /h2 /= insert_insert_eq|].
    do 3 (split; [done|]). split.
    + move: Hview. rewrite /h2 /= lookup_insert_eq //.
    + intros a Ha. rewrite Hother // /h2 /= lookup_insert_ne; first [done | congruence].
Qed.

(** [WithFields] on a receiver that has a field map: the derived struct
    refers to the same map object, and the receiver shows the additions
    too. *)
Lemma WithFields_shares_map h l L m f :
  loggers h !! l = Some L → fields L = Some m →
  ∃ ll h', WithFields l f h = Done ll h' ∧
           loggers h' !! l = Some L ∧ loggers h' !! ll = Some L ∧
           field_set h' l = f ∪ field_set h l.
Proof.
  intros Hl Hm. destruct (WithFields_Done h l L f Hl)
    as (h' & Hrun & Hlog & _ & _ & _ & Hview & _).
  rewrite Hm /= in Hlog, Hview. rewrite put_fields_same // in Hlog.
  exists (fresh (dom (loggers h))), h'. split; [done|].
  assert (loggers h' !! l = Some L) as Hl'.
  { rewrite Hlog lookup_insert_ne //. intros E. by apply (allocated_not_fresh _ _ _ Hl). }
  split; [done|]. split; [by rewrite Hlog lookup_insert_eq|].
  rewrite /field_set Hl Hl' Hm //.
Qed.

(** Every struct that exists keeps its contents across a [WithFields] on
    any receiver. *)
Lemma WithFields_keeps_structs h t f ll h' l L :
  WithFields t f h = Done ll h' → loggers h !! l = Some L → loggers h' !! l = Some L.
Proof.
  intros Hrun Hl. destruct (loggers h !! t) as [T|] eqn:Ht.
  - destruct (WithFields_Done h t T f Ht) as (h2 & Hrun2 & Hlog & _).
    rewrite Hrun2 in Hrun. injection Hrun as _ <-.
    rewrite Hlog lookup_insert_ne //. intros E. by apply (allocated_not_fresh _ _ _ Hl).
  - move: Hrun. rewrite /WithFields. run. by rewrite clone_Panics.
Qed.

Lemma WithFields_calls_keep_structs calls h h' l L :
  WithFields_calls calls h = Done tt h' → loggers h !! l = Some L →
  loggers h' !! l = Some L.
Proof.
  revert h. induction calls as [|[t f] calls IH]; intros h Hrun Hl.
  - by injection Hrun as <-.
  - move: Hrun. rewrite /=. run.
    destruct (WithFields t f h) as [ll h1| |] eqn:Hrun1; [|done..].
    intros Hrun. apply (IH h1); [done|].
    exact (WithFields_keeps_structs h t f ll h1 l L Hrun1 Hl).
Qed.

Lemma WithFields_chain_Done fs h l L :
  loggers h !! l = Some L →
  ∃ ll h', WithFields_chain l fs h = Done ll h' ∧
           ∀ x X, loggers h !! x = Some X → loggers h' !! x = Some X.
Proof.
  revert h l L. induction fs as [|f fs IH]; intros h l L Hl.
  - by exists l, h.
  - destruct (WithFields_Done h l L f Hl) as (h1 & Hrun & Hlog & _).
    destruct (IH h1 (fresh (dom (loggers h)))
                (put_fields (Some (default (fresh (dom (maps h))) (fields L))) L))
      as (ll & h2 & Hrun2 & Hkeep); [by rewrite Hlog lookup_insert_eq|].
    exists ll, h2. split.
    + rewrite /=. run. by rewrite Hrun.
    + intros x X Hx. apply Hkeep.
      exact (WithFields_keeps_structs h l f _ h1 x X Hrun Hx).
Qed.

Lemma field_set_nil h l L : loggers h !! l = Some L → fields L = None → field_set h l = ∅.
Proof. intros Hl Hm. by rewrite /field_set Hl Hm. Qed.

Lemma root_heap_root : loggers root_heap !! 1%positive = Some root_Logger.
Proof. reflexivity. Qed.

Lemma service_heap_service : loggers service_heap !! 2%positive = Some service_Logger.
Proof. reflexivity. Qed.

(** C1. The claim: for every configuration C and additions F,
    [WithFields(F)] on C leaves C's own field set as it was, the derived
    configuration having containers of its own. The code at a receiver
    that already has fields: C is derived from a root with the field
    [service]; deriving D from C with the field [trace_id] leaves C's
    struct alone, but D's struct refers to the very map object and the
    very caller slice of C, so C's field set, which showed [service]
    only, now shows [trace_id] as well. *)
Theorem WithFields_mutates_receiver :
  ∃ d h',
    WithFields 2%positive {[ "trace_id" := VString "t1" ]} service_heap = Done d h' ∧
    field_set service_heap 2%positive = {[ "service" := VString "auth" ]} ∧
    field_set h' 2%positive
    = {[ "service" := VString "auth"; "trace_id" := VString "t1" ]} ∧
    field_set h' 2%positive ≠ field_set service_heap 2%positive ∧
    loggers h' !! 2%positive = loggers service_heap !! 2%positive ∧
    fields <$> (loggers h' !! d) = fields <$> (loggers h' !! 2%positive) ∧
    callers <$> (loggers h' !! d) = callers <$> (loggers h' !! 2%positive).
Proof.
  destruct (WithFields_shares_map service_heap 2%positive service_Logger 1%positive
              {[ "trace_id" := VString "t1" ]})
    as (d & h' & Hrun & Hc & Hd & Hset); [reflexivity..|].
  exists d, h'. split; [exact Hrun|].
  assert (field_set service_heap 2%positive = {[ "service" := VString "auth" ]}) as Hbefore
    by (vm_compute; reflexivity).
  split; [exact Hbefore|]. rewrite Hset Hbefore.
  split; [vm_compute; reflexivity|]. split.
  - intros E. apply (f_equal (λ m : gmap string value, m !! "trace_id")) in E.
    vm_compute in E. discriminate E.
  - rewrite Hc Hd. repeat split; reflexivity.
Qed.

(** C8. A receiver whose field map is nil, such as a root configuration
    just built by [NewLogger], gets a new map object in [WithFields]: the
    derived struct refers to a map that did not exist before, and neither
    that call nor any [WithFields] call after it, on the derived
    configuration, on its descendants or on any other receiver, changes
    the receiver's struct or its (empty) field set. *)
Theorem WithFields_nil_receiver_untouched h l L f :
  loggers h !! l = Some L → fields L = None →
  ∃ ll h' m,
    WithFields l f h = Done ll h' ∧
    (m ∉ dom (maps h)) ∧
    fields <$> (loggers h' !! ll) = Some (Some m) ∧
    field_set h' ll = f ∧
    loggers h' !! l = Some L ∧ field_set h' l = ∅ ∧
    (∀ fs, ∃ ll' h'', WithFields_chain ll fs h' = Done ll' h'' ∧
                      loggers h'' !! l = Some L ∧ field_set h'' l = ∅) ∧
    (∀ calls h'', WithFields_calls calls h' = Done tt h'' →
                  loggers h'' !! l = Some L ∧ field_set h'' l = ∅).
Proof.
  intros Hl Hm. destruct (WithFields_Done h l L f Hl)
    as (h' & Hrun & Hlog & _ & _ & _ & Hview & _).
  rewrite Hm /= in Hlog, Hview. rewrite right_id_L in Hview.
  exists (fresh (dom (loggers h))), h', (fresh (dom (maps h))).
  assert (loggers h' !! l = Some L) as Hl'
    by exact (WithFields_keeps_structs h l f _ h' l L Hrun Hl).
  assert (loggers h' !! fresh (dom (loggers h))
          = Some (put_fields (Some (fresh (dom (maps h)))) L)) as Hll
    by (by rewrite Hlog lookup_insert_eq).
  split; [done|]. split; [apply is_fresh|].
  split; [by rewrite Hll|]. split; [by rewrite /field_set Hll|].
  split; [done|]. split; [by apply (field_set_nil _ _ L)|]. split.
  - intros fs. destruct (WithFields_chain_Done fs h' _ _ Hll) as (ll' & h'' & Hchain & Hkeep).
    exists ll', h''. split; [done|].
    split; [by apply Hkeep | apply (field_set_nil _ _ L); [by apply Hkeep | done]].
  - intros calls h'' Hcalls.
    assert (loggers h'' !! l = Some L)
      by exact (WithFields_calls_keep_structs calls h' h'' l L Hcalls Hl').
    split; [done | by apply (field_set_nil _ _ L)].
Qed.

Lemma WithFields_nil_receiver_untouched_witness :
  loggers root_heap !! 1%positive = Some root_Logger ∧
  fields root_Logger = None ∧
  ∃ ll h', WithFields 1%positive {[ "service" := VString "auth" ]} root_heap = Done ll h' ∧
           field_set h' ll = {[ "service" := VString "auth" ]} ∧
           field_set h' 1%positive = ∅.
Proof.
  split; [reflexivity|]. split; [reflexivity|].
  destruct (WithFields_nil_receiver_untouched root_heap 1%positive root_Logger
              {[ "service" := VString "auth" ]} eq_refl eq_refl)
    as (ll & h' & m & Hrun & _ & _ & Hset & _ & Hnil & _).
  exists ll, h'. split; [exact Hrun|]. split; [exact Hset | exact Hnil].
Defined.

(** ** Caller capture *)

Lemma frames_loop_Next frames callers :
  frames_loop frames callers
  = let '(frame, more, rest) := Frames_Next frames in
    if more then frames_loop rest (callers ++ [Frame_text frame]) else callers.
Proof. by destruct frames. Qed.

(** The loop keeps every frame that has a successor. *)
Lemma frames_loop_init init final callers :
  frames_loop (init ++ [final]) callers = callers ++ (Frame_text <$> init).
Proof.
  revert callers. induction init as [|frame init IH]; intros callers.
  - by rewrite /= right_id_L.
  - cbn [app frames_loop]. rewrite bool_decide_true; [by destruct init|].
    rewrite IH fmap_cons -assoc_L //.
Qed.

Lemma frames_loop_length frames :
  length (frames_loop frames []) = (length frames - 1)%nat.
Proof.
  destruct (decide (frames = [])) as [->|Hne]; [done|].
  destruct (exists_last Hne) as (init & final & ->).
  rewrite frames_loop_init /= length_fmap length_app /=. lia.
Qed.

Lemma runtime_Callers_length env skip n : (length (runtime_Callers env skip n) ≤ n)%nat.
Proof. rewrite /runtime_Callers length_take. lia. Qed.

Lemma WithCallersFrames_Done env h l L :
  loggers h !! l = Some L →
  WithCallersFrames env l h
  = Done (fresh (dom (loggers h)))
      (set_loggers
         (insert (fresh (dom (loggers h)))
            (put_callers
               (SRef (fresh (dom (arrays h)))
                  (length (frames_loop (runtime_Callers env 1 25) []))) L))
         (set_arrays
            (insert (fresh (dom (arrays h))) (frames_loop (runtime_Callers env 1 25) []))
            h)).
Proof.
  intros Hl. rewrite /WithCallersFrames /new_array. run.
  rewrite (clone_Done _ _ L) // /update /= lookup_insert_eq set_loggers_insert_insert //.
Qed.

Lemma WithCallersFrames_caller_seq env h l L :
  loggers h !! l = Some L →
  ∃ ll h', WithCallersFrames env l h = Done ll h' ∧
           loggers h' !! l = Some L ∧
           caller_seq h' ll = frames_loop (runtime_Callers env 1 25) [].
Proof.
  intros Hl. eexists _, _. split; [exact (WithCallersFrames_Done env h l L Hl)|].
  split; [exact (lookup_after_alloc _ l L _ Hl)|].
  rewrite /caller_seq /= lookup_insert_eq /= lookup_insert_eq /= take_ge //.
Qed.

Lemma WithCaller_Done_no_frame env h l L skip pc file line :
  loggers h !! l = Some L →
  runtime_Caller env skip = (pc, file, line, false) →
  WithCaller env l skip h
  = Done (fresh (dom (loggers h)))
         (set_loggers (insert (fresh (dom (loggers h))) L) h).
Proof.
  intros Hl Hc. rewrite /WithCaller. run. rewrite (clone_Done _ _ L) // Hc //.
Qed.

Lemma WithCaller_Done_frame env h l L skip pc file line :
  loggers h !! l = Some L →
  runtime_Caller env skip = (pc, file, line, true) →
  WithCaller env l skip h
  = Done (fresh (dom (loggers h)))
      (set_loggers
         (insert (fresh (dom (loggers h)))
            (put_callers (SRef (fresh (dom (arrays h))) 1) L))
         (set_arrays
            (insert (fresh (dom (arrays h)))
               [Sprintf_caller file line (Func_Name (FuncForPC env pc))])
            h)).
Proof.
  intros Hl Hc. rewrite /WithCaller. run. rewrite (clone_Done _ _ L) // Hc.
  rewrite /new_array /update /= lookup_insert_eq.
  rewrite /set_loggers /set_arrays /= insert_insert_eq //.
Qed.

(** C5. For every configuration and every call stack,
    [WithCallersFrames] returns a configuration whose caller sequence has
    at most 25 entries; the sequence is the one the walk has just
    produced, whatever the receiver's own caller sequence was; and when
    the walk finds no frame the call still returns, with an empty
    sequence. The receiver's struct is left as it was. *)
Theorem WithCallersFrames_bounded_replace env h l L :
  loggers h !! l = Some L →
  ∃ ll h',
    WithCallersFrames env l h = Done ll h' ∧
    (length (caller_seq h' ll) ≤ 25)%nat ∧
    caller_seq h' ll = frames_loop (runtime_Callers env 1 25) [] ∧
    (runtime_Callers env 1 25 = [] → caller_seq h' ll = []) ∧
    loggers h' !! l = Some L.
Proof.
  intros Hl. destruct (WithCallersFrames_caller_seq env h l L Hl)
    as (ll & h' & Hrun & Hl' & Hseq).
  exists ll, h'. split; [done|]. rewrite Hseq. split.
  - rewrite frames_loop_length.
    pose proof (runtime_Callers_length env 1 25). lia.
  - split; [done|]. split; [by intros ->|done].
Qed.

Lemma WithCallersFrames_bounded_replace_witness :
  loggers caller_heap !! 2%positive = Some caller_Logger ∧
  ∃ ll h', WithCallersFrames example_env 2%positive caller_heap = Done ll h' ∧
           (length (caller_seq h' ll) ≤ 25)%nat ∧
           caller_seq h' ll
           = ["pkg/logger/logger.go: 115 logger.(*Logger).WithCallersFrames";
              "main.go: 12 main.handler"].
Proof.
  split; [reflexivity|].
  destruct (WithCallersFrames_bounded_replace example_env caller_heap 2%positive
              caller_Logger eq_refl)
    as (ll & h' & Hrun & Hlen & Hseq & _).
  exists ll, h'. split; [exact Hrun|]. split; [exact Hlen|].
  exact (eq_trans Hseq eq_refl).
Defined.

(** C9. When the walk reports n >= 1 frames, that is some frames [init]
    followed by a last one [final], [WithCallersFrames] stores the
    rendered frames of [init], n - 1 of them, and not the last frame: a
    frame is appended only when a further frame exists. A walk of exactly
    one frame gives an empty caller sequence. *)
Theorem WithCallersFrames_drops_last env h l L init final :
  loggers h !! l = Some L →
  runtime_Callers env 1 25 = init ++ [final] →
  ∃ ll h',
    WithCallersFrames env l h = Done ll h' ∧
    caller_seq h' ll = Frame_text <$> init ∧
    length (caller_seq h' ll) = (length (runtime_Callers env 1 25) - 1)%nat ∧
    (length (runtime_Callers env 1 25) = 1%nat → caller_seq h' ll = []).
Proof.
  intros Hl Hwalk. destruct (WithCallersFrames_caller_seq env h l L Hl)
    as (ll & h' & Hrun & _ & Hseq).
  exists ll, h'. split; [done|]. rewrite Hseq. split; [|split].
  - by rewrite Hwalk frames_loop_init.
  - apply frames_loop_length.
  - intros Hone. apply nil_length_inv. by rewrite frames_loop_length Hone.
Qed.

Lemma WithCallersFrames_drops_last_witness :
  loggers root_heap !! 1%positive = Some root_Logger ∧
  runtime_Callers example_env 1 25
  = [mkFrame 20 "pkg/logger/logger.go" 115 "logger.(*Logger).WithCallersFrames";
     mkFrame 30 "main.go" 12 "main.handler"]
    ++ [mkFrame 40 "main.go" 30 "main.main"] ∧
  ∃ ll h', WithCallersFrames example_env 1%positive root_heap = Done ll h' ∧
           caller_seq h' ll
           = ["pkg/logger/logger.go: 115 logger.(*Logger).WithCallersFrames";
              "main.go: 12 main.handler"].
Proof.
  split; [reflexivity|]. split; [reflexivity|].
  destruct (WithCallersFrames_drops_last example_env root_heap 1%positive root_Logger
              [mkFrame 20 "pkg/logger/logger.go" 115 "logger.(*Logger).WithCallersFrames";
               mkFrame 30 "main.go" 12 "main.handler"]
              (mkFrame 40 "main.go" 30 "main.main") eq_refl eq_refl)
    as (ll & h' & Hrun & Hseq & _).
  exists ll, h'. split; [exact Hrun|]. exact (eq_trans Hseq eq_refl).
Defined.

(** C6. For every configuration C and every skip depth,
    [WithCaller(skip)] returns normally and leaves C's struct alone. When
    the runtime resolves no frame at that depth, the derived struct has
    C's caller slice itself and nothing was allocated for it, so its
    caller sequence is C's, entry for entry. When a frame is resolved,
    the caller sequence is the single rendered frame, whatever C's
    was. *)
Theorem WithCaller_capture env h l L skip :
  loggers h !! l = Some L →
  ∃ ll h',
    WithCaller env l skip h = Done ll h' ∧
    loggers h' !! l = Some L ∧
    (∀ pc file line, runtime_Caller env skip = (pc, file, line, false) →
       callers <$> (loggers h' !! ll) = Some (callers L) ∧
       arrays h' = arrays h ∧
       caller_seq h' ll = caller_seq h l) ∧
    (∀ pc file line, runtime_Caller env skip = (pc, file, line, true) →
       caller_seq h' ll = [Sprintf_caller file line (Func_Name (FuncForPC env pc))]).
Proof.
  intros Hl. destruct (runtime_Caller env skip) as [[[pc file] line] [|]] eqn:Hc.
  - eexists _, _.
    split; [exact (WithCaller_Done_frame env h l L skip pc file line Hl Hc)|].
    split; [exact (lookup_after_alloc _ l L _ Hl)|]. split; [done|].
    intros ? ? ? [= <- <- <-].
    rewrite /caller_seq /= lookup_insert_eq /= lookup_insert_eq //.
  - eexists _, _.
    split; [exact (WithCaller_Done_no_frame env h l L skip pc file line Hl Hc)|].
    split; [exact (lookup_after_alloc h l L L Hl)|]. split; [|done].
    intros _ _ _ _. rewrite /caller_seq /= lookup_insert_eq Hl //.
Qed.

Lemma WithCaller_capture_witness :
  loggers caller_heap !! 2%positive = Some caller_Logger ∧
  runtime_Caller example_env 7 = (0, "", 0, false) ∧
  ∃ ll h', WithCaller example_env 2%positive 7 caller_heap = Done ll h' ∧
           caller_seq h' ll = ["main.go: 12 main.handler"].
Proof.
  split; [reflexivity|]. split; [reflexivity|].
  destruct (WithCaller_capture example_env caller_heap 2%positive caller_Logger 7 eq_refl)
    as (ll & h' & Hrun & _ & Hnone & _).
  exists ll, h'. split; [exact Hrun|].
  destruct (Hnone 0 "" 0 eq_refl) as (_ & _ & Hseq).
  exact (eq_trans Hseq eq_refl).
Defined.

(** ** Record construction *)

Lemma JSONFormat_loop_Done data kvs h :
  JSONFormat_loop data kvs h = Done tt (foldl (assign_new data) h kvs).
Proof.
  revert h. induction kvs as [|kv kvs IH]; intros h; [reflexivity|].
  rewrite /JSONFormat_loop. cbn [range foldl]. run. rewrite /read_map /assign_new /assign /map_assign /=.
  destruct (default ∅ (maps h !! data) !! kv.1); apply IH.
Qed.

Lemma union_singleton_present (d : gmap string value) k v w :
  d !! k = Some w → d ∪ {[k := v]} = d.
Proof.
  intros Hk. apply map_eq. intros i. rewrite lookup_union.
  destruct (decide (i = k)) as [->|Hne].
  - rewrite Hk lookup_singleton_eq //.
  - rewrite lookup_singleton_ne; [congruence|]. destruct (d !! i); reflexivity.
Qed.

Lemma assign_new_union data d h kv :
  maps h !! data = Some d →
  assign_new data h kv = set_maps (insert data (d ∪ {[kv.1 := kv.2]})) h.
Proof.
  intros Hd. rewrite /assign_new /assign /= Hd /=.
  destruct (d !! kv.1) as [w|] eqn:Hk.
  - rewrite (union_singleton_present d _ _ w) // set_maps_insert_id //.
  - rewrite insert_union_singleton_r //.
Qed.

Lemma foldl_assign_new data kvs h d :
  maps h !! data = Some d →
  foldl (assign_new data) h kvs = set_maps (insert data (d ∪ list_to_map kvs)) h.
Proof.
  revert h d. induction kvs as [|[k v] kvs IH]; intros h d Hd.
  - cbn [foldl list_to_map foldr]. rewrite right_id_L set_maps_insert_id //.
  - cbn [foldl list_to_map foldr]. rewrite (assign_new_union _ d) //.
    rewrite (IH _ (d ∪ {[k := v]})).
    { rewrite /set_maps. cbn [maps]. apply lookup_insert_eq. }
    rewrite set_maps_insert_insert -assoc_L -insert_union_singleton_l //.
Qed.

Lemma mbind_Done {A B} (c : M A) (k : A → M B) h a h' :
  c h = Done a h' → (c ≫= k) h = k a h'.
Proof. intros Hc. rewrite /mbind /M_bind Hc. reflexivity. Qed.

Lemma load_Done h l L : loggers h !! l = Some L → load l h = Done L h.
Proof. intros Hl. rewrite /load Hl. reflexivity. Qed.

Lemma map_assign_Done a k v h d :
  maps h !! a = Some d →
  map_assign (Some a) k v h = Done tt (set_maps (insert a (<[k:=v]> d)) h).
Proof. intros Hd. rewrite /map_assign /map_view Hd. reflexivity. Qed.

Lemma maps_set_maps_insert a d h : maps (set_maps (insert a d) h) !! a = Some d.
Proof. rewrite /set_maps. cbn [maps]. apply lookup_insert_eq. Qed.

Lemma record_after_make env h L message :
  reserved env L message
    ∪ map_view (set_maps (insert (fresh (dom (maps h))) (reserved env L message)) h)
        (fields L)
  = record env h L message.
Proof.
  rewrite /record. destruct (fields L) as [m|]; [|reflexivity].
  rewrite /map_view /set_maps. cbn [maps].
  destruct (decide (m = fresh (dom (maps h)))) as [->|Hne].
  - rewrite lookup_insert_eq fresh_map. cbn [default].
    rewrite (idemp (∪) (reserved env L message)) right_id_L //.
  - rewrite lookup_insert_ne; [congruence|reflexivity].
Qed.

Lemma JSONFormat_Done env h l L message :
  loggers h !! l = Some L →
  JSONFormat env l message h
  = Done (fresh (dom (maps h)))
         (set_maps (insert (fresh (dom (maps h))) (record env h L message)) h).
Proof.
  intros Hl. rewrite /JSONFormat.
  rewrite (mbind_Done _ _ h L h (load_Done h l L Hl)).
  set (data := fresh (dom (maps h))).
  rewrite (mbind_Done _ _ h data (set_maps (insert data ∅) h) eq_refl).
  rewrite (mbind_Done _ _ _ tt _ (map_assign_Done data _ _ _ ∅ (maps_set_maps_insert _ _ _))).
  rewrite set_maps_insert_insert.
  rewrite (mbind_Done _ _ _ tt _ (map_assign_Done data _ _ _ _ (maps_set_maps_insert _ _ _))).
  rewrite set_maps_insert_insert.
  rewrite (mbind_Done _ _ _ tt _ (map_assign_Done data _ _ _ _ (maps_set_maps_insert _ _ _))).
  rewrite set_maps_insert_insert.
  rewrite (mbind_Done _ _ _ tt _ (map_assign_Done data _ _ _ _ (maps_set_maps_insert _ _ _))).
  rewrite set_maps_insert_insert.
  fold (reserved env L message).
  set (h4 := set_maps (insert data (reserved env L message)) h).
  rewrite (mbind_Done (read_map (fields L)) _ h4 (map_view h4 (fields L)) h4 eq_refl).
  rewrite -(record_after_make env h L message). fold data. fold h4.
  destruct (bool_decide (0 < size (map_view h4 (fields L)))%nat) eqn:Hsize.
  - rewrite (mbind_Done _ _ h4 tt _ (JSONFormat_loop_Done data _ h4)).
    rewrite (foldl_assign_new data _ h4 (reserved env L message)).
    { apply maps_set_maps_insert. }
    rewrite list_to_map_to_list /h4 set_maps_insert_insert. reflexivity.
  - apply bool_decide_eq_false in Hsize.
    assert (map_view h4 (fields L) = ∅) as ->.
    { apply map_size_empty_iff. lia. }
    rewrite right_id_L. reflexivity.
Qed.

(** The order in which the field set is visited does not show. *)
Lemma JSONFormat_loop_order (fs : gmap string value) kvs data h d :
  maps h !! data = Some d →
  kvs ≡ₚ map_to_list fs →
  JSONFormat_loop data kvs h = Done tt (set_maps (insert data (d ∪ fs)) h).
Proof.
  intros Hd Hp. rewrite JSONFormat_loop_Done (foldl_assign_new data kvs h d) //.
  rewrite (list_to_map_proper kvs (map_to_list fs)) //.
  - rewrite Hp. apply NoDup_fst_map_to_list.
  - rewrite list_to_map_to_list //.
Qed.

Lemma reserved_level env L message :
  reserved env L message !! "level" = Some (VString (Level_String (level L))).
Proof.
  rewrite /reserved. do 3 (rewrite lookup_insert_ne; [done|]).
  apply lookup_insert_eq.
Qed.

Lemma reserved_time env L message :
  reserved env L message !! "time" = Some (VInt (now env)).
Proof.
  rewrite /reserved. do 2 (rewrite lookup_insert_ne; [done|]).
  apply lookup_insert_eq.
Qed.

Lemma reserved_message env L message :
  reserved env L message !! "message" = Some (VString message).
Proof.
  rewrite /reserved. rewrite lookup_insert_ne; [done|].
  apply lookup_insert_eq.
Qed.

Lemma reserved_callers env L message :
  reserved env L message !! "callers" = Some (VStrings (callers L)).
Proof. rewrite /reserved. apply lookup_insert_eq. Qed.

Lemma reserved_other env L message k :
  ¬ reserved_key k → reserved env L message !! k = None.
Proof.
  rewrite /reserved_key /reserved. intros Hk.
  do 4 (rewrite lookup_insert_ne; [intros <-; tauto|]). apply lookup_empty.
Qed.

(** The record: a reserved key has the reserved value, any other key has
    what the field set has for it. *)
Lemma record_lookup env h L message k :
  record env h L message !! k
  = match reserved env L message !! k with
    | Some v => Some v
    | None => map_view h (fields L) !! k
    end.
Proof.
  rewrite /record lookup_union.
  destruct (reserved env L message !! k); [|by rewrite left_id_L].
  destruct (map_view h (fields L) !! k); reflexivity.
Qed.

(** C3. For every configuration and message, the record [JSONFormat]
    builds has the four reserved keys with the reserved values: [level]
    the canonical text of the level, [time] the clock reading, [message]
    the message argument itself, [callers] the caller slice. A field of
    the configuration is in the record only under a key that is none of
    these: a field named like a reserved key, [message] for one, is left
    out. Every other key has what the field set has for it. The order in
    which the field set is visited does not matter
    ([JSONFormat_loop_order]). *)
Theorem JSONFormat_reserved_keys_win env h l L message :
  loggers h !! l = Some L →
  ∃ data h',
    JSONFormat env l message h = Done data h' ∧
    map_view h' (Some data) !! "level" = Some (VString (Level_String (level L))) ∧
    map_view h' (Some data) !! "time" = Some (VInt (now env)) ∧
    map_view h' (Some data) !! "message" = Some (VString message) ∧
    map_view h' (Some data) !! "callers" = Some (VStrings (callers L)) ∧
    (∀ k, ¬ reserved_key k → map_view h' (Some data) !! k = field_set h l !! k).
Proof.
  intros Hl. eexists _, _. split; [exact (JSONFormat_Done env h l L message Hl)|].
  rewrite /map_view maps_set_maps_insert. cbn [default].
  rewrite !record_lookup reserved_level reserved_time reserved_message reserved_callers.
  do 4 (split; [reflexivity|]).
  intros k Hk. rewrite record_lookup reserved_other // /field_set Hl //.
Qed.

Lemma JSONFormat_reserved_keys_win_witness :
  loggers collide_heap !! 2%positive
  = Some (mkLogger (Some 1%positive) None 0 (Some 1%positive) SNil) ∧
  field_set collide_heap 2%positive !! "message" = Some (VString "from the fields") ∧
  ∃ data h',
    JSONFormat example_env 2%positive "hello" collide_heap = Done data h' ∧
    map_view h' (Some data) !! "message" = Some (VString "hello") ∧
    map_view h' (Some data) !! "service" = Some (VString "auth").
Proof.
  split; [reflexivity|]. split; [vm_compute; reflexivity|].
  destruct (JSONFormat_reserved_keys_win example_env collide_heap 2%positive
              (mkLogger (Some 1%positive) None 0 (Some 1%positive) SNil) "hello" eq_refl)
    as (data & h' & Hrun & _ & _ & Hmessage & _ & Hother).
  exists data, h'. split; [exact Hrun|]. split; [exact Hmessage|].
  refine (eq_trans (Hother "service" _) _).
  - intros [H|[H|[H|H]]]; discriminate H.
  - vm_compute. reflexivity.
Defined.

(** ** Emission *)

Lemma serialize_Done env h l L message :
  loggers h !! l = Some L →
  serialize env l message h
  = Done (json.encode_object (arrays h) (record env h L message))
         (set_maps (insert (fresh (dom (maps h))) (record env h L message)) h).
Proof.
  intros Hl. rewrite /serialize.
  rewrite (mbind_Done _ _ h _ _ (JSONFormat_Done env h l L message Hl)).
  rewrite /json.Marshal /map_view maps_set_maps_insert. reflexivity.
Qed.

Lemma log_Print_Done env h p sl received s :
  stdlogs h !! p = Some sl → sinks h !! out sl = Some received →
  log_Print env (Some p) s h
  = Done tt (set_sinks (insert (out sl) (received ++ [log_line env sl s])) h).
Proof. intros Hp Hw. rewrite /log_Print Hp /Writer_Write Hw. reflexivity. Qed.

(** The six cases of the switch in [Output] do the same; a level outside
    them falls through. *)
Lemma Output_Done env h l L message :
  loggers h !! l = Some L →
  Output env l message h
  = (if bool_decide (defined_level (level L))
     then log_Print env (newLogger L)
            (default "" (json.encode_object (arrays h) (record env h L message)))
     else mret tt)
      (set_maps (insert (fresh (dom (maps h))) (record env h L message)) h).
Proof.
  intros Hl. rewrite /Output.
  rewrite (mbind_Done _ _ h _ _ (JSONFormat_Done env h l L message Hl)).
  set (h1 := set_maps _ h).
  rewrite (mbind_Done (json.Marshal _) _ h1
             (json.encode_object (arrays h) (record env h L message)) h1).
  { rewrite /json.Marshal /map_view /h1 maps_set_maps_insert. reflexivity. }
  rewrite (mbind_Done (load l) _ h1 L h1 (load_Done h1 l L Hl)).
  rewrite /defined_level /LevelDebug /LevelInfo /LevelWarn /LevelError /LevelFatal
    /LevelPanic.
  repeat case_bool_decide; first [reflexivity | lia].
Qed.

Lemma serialized_record env h l L message :
  loggers h !! l = Some L →
  serialized env l message h = json.encode_object (arrays h) (record env h L message).
Proof. intros Hl. rewrite /serialized (serialize_Done env h l L message Hl). reflexivity. Qed.

Lemma log_line_empty env sl :
  log_line env sl "" = log_header env (prefix sl) (flag sl) +:+ String json.newline "".
Proof. reflexivity. Qed.

(** What [Output] does for a level among the six, whether or not the
    serialization succeeded: one [Write], of the line for the text or for
    the empty string. *)
Lemma Output_defined_level env h l L p sl received message :
  loggers h !! l = Some L → newLogger L = Some p →
  stdlogs h !! p = Some sl → sinks h !! out sl = Some received →
  defined_level (level L) →
  ∃ h', Output env l message h = Done tt h' ∧
        sinks h'
        = <[out sl := received ++ [log_line env sl (default "" (serialized env l message h))]]>
            (sinks h) ∧
        loggers h' = loggers h ∧ stdlogs h' = stdlogs h ∧ arrays h' = arrays h.
Proof.
  intros Hl Hp Hsl Hw Hdef.
  rewrite (Output_Done env h l L message Hl) bool_decide_true // Hp.
  rewrite (serialized_record env h l L message Hl).
  eexists. split; [exact (log_Print_Done env (set_maps _ h) p sl received _ Hsl Hw)|].
  repeat split; reflexivity.
Qed.

(** C4. For every configuration whose level is one of the six severities
    and whose record serializes to a text [body], [Output] returns after
    exactly one [Write] to the configuration's writer: the writer has
    received one more byte string, the line made of the header, [body]
    and a newline; nothing else in the heap of loggers, line writers and
    arrays has changed. Which of the six the level is does not enter:
    the level shows in [body] only. *)
Theorem Output_writes_once env h l L p sl received message body :
  loggers h !! l = Some L → newLogger L = Some p →
  stdlogs h !! p = Some sl → sinks h !! out sl = Some received →
  defined_level (level L) →
  serialized env l message h = Some body →
  ∃ h', Output env l message h = Done tt h' ∧
        sinks h' = <[out sl := received ++ [log_line env sl body]]> (sinks h) ∧
        loggers h' = loggers h ∧ stdlogs h' = stdlogs h ∧ arrays h' = arrays h.
Proof.
  intros Hl Hp Hsl Hw Hdef Hbody.
  destruct (Output_defined_level env h l L p sl received message Hl Hp Hsl Hw Hdef)
    as (h' & Hrun & Hsinks & Hrest).
  exists h'. split; [exact Hrun|]. rewrite Hbody in Hsinks. split; [exact Hsinks|exact Hrest].
Qed.

Lemma Output_writes_once_witness :
  loggers service_heap !! 2%positive = Some service_Logger ∧
  stdlogs service_heap !! 1%positive = Some root_StdLogger ∧
  sinks service_heap !! 1%positive = Some [] ∧
  defined_level (level service_Logger) ∧
  serialized example_env 2%positive "hello" service_heap = Some hello_body ∧
  ∃ h', Output example_env 2%positive "hello" service_heap = Done tt h' ∧
        sinks h' = <[1%positive := [log_line example_env root_StdLogger hello_body]]>
                     (sinks service_heap).
Proof.
  assert (defined_level (level service_Logger)) as Hdef by (vm_compute; split; discriminate).
  assert (serialized example_env 2%positive "hello" service_heap = Some hello_body) as Hbody
    by (vm_compute; reflexivity).
  do 3 (split; [reflexivity|]). split; [exact Hdef|]. split; [exact Hbody|].
  destruct (Output_writes_once example_env service_heap 2%positive service_Logger
              1%positive root_StdLogger [] "hello" hello_body
              eq_refl eq_refl eq_refl eq_refl Hdef Hbody)
    as (h' & Hrun & Hsinks & _).
  exists h'. split; [exact Hrun | exact Hsinks].
Defined.

(** C2, as claimed: whenever serializing the record fails, [Output]
    leaves the writer as it was. It does not: the configuration at
    address 2 of [chan_heap], derived from a root with empty prefix and
    no flags, has the field [done] holding a channel; its record does not
    serialize, and [Output] hands the writer, which had received nothing,
    one byte string: a single newline. *)
Lemma Output_failure_not_silent :
  serialized example_env 2%positive "hello" chan_heap = None ∧
  (∃ h', Output example_env 2%positive "hello" chan_heap = Done tt h' ∧
         sinks chan_heap !! 1%positive = Some [] ∧
         sinks h' !! 1%positive = Some [String json.newline ""]) ∧
  ¬ (∀ env h l message h',
       serialized env l message h = None →
       Output env l message h = Done tt h' →
       sinks h' = sinks h).
Proof.
  assert (serialized example_env 2%positive "hello" chan_heap = None) as Hfail
    by (vm_compute; reflexivity).
  assert (∃ h', Output example_env 2%positive "hello" chan_heap = Done tt h' ∧
                sinks chan_heap !! 1%positive = Some [] ∧
                sinks h' !! 1%positive = Some [String json.newline ""]) as Hrun.
  { eexists. split; [vm_compute; reflexivity|]. split; vm_compute; reflexivity. }
  split; [exact Hfail|]. split; [exact Hrun|].
  intros Hclaim. destruct Hrun as (h' & Hrun & Hbefore & Hafter).
  rewrite (Hclaim _ _ _ _ _ Hfail Hrun) Hbefore in Hafter. discriminate Hafter.
Qed.

(** C2, amended. For every configuration whose level is one of the six
    severities, when serializing the record fails [Output] still returns
    after exactly one [Write]: the text handed to the line writer is the
    empty string, so the writer receives the header (the prefix and what
    the flags select) followed by a newline, an empty log line, and no
    JSON text, whole or truncated. *)
Theorem Output_failure_writes_empty_line env h l L p sl received message :
  loggers h !! l = Some L → newLogger L = Some p →
  stdlogs h !! p = Some sl → sinks h !! out sl = Some received →
  defined_level (level L) →
  serialized env l message h = None →
  ∃ h', Output env l message h = Done tt h' ∧
        sinks h'
        = <[out sl := received
                      ++ [log_header env (prefix sl) (flag sl) +:+ String json.newline ""]]>
            (sinks h) ∧
        loggers h' = loggers h ∧ stdlogs h' = stdlogs h ∧ arrays h' = arrays h.
Proof.
  intros Hl Hp Hsl Hw Hdef Hfail.
  destruct (Output_defined_level env h l L p sl received message Hl Hp Hsl Hw Hdef)
    as (h' & Hrun & Hsinks & Hrest).
  exists h'. split; [exact Hrun|]. rewrite Hfail in Hsinks. split; [exact Hsinks|exact Hrest].
Qed.

Lemma Output_failure_writes_empty_line_witness :
  loggers chan_heap !! 2%positive
  = Some (mkLogger (Some 1%positive) None 0 (Some 1%positive) SNil) ∧
  stdlogs chan_heap !! 1%positive = Some root_StdLogger ∧
  sinks chan_heap !! 1%positive = Some [] ∧
  defined_level 0 ∧
  serialized example_env 2%positive "hello" chan_heap = None ∧
  ∃ h', Output example_env 2%positive "hello" chan_heap = Done tt h' ∧
        sinks h' = <[1%positive := [String json.newline ""]]> (sinks chan_heap).
Proof.
  assert (defined_level 0) as Hdef by (vm_compute; split; discriminate).
  assert (serialized example_env 2%positive "hello" chan_heap = None) as Hfail
    by (vm_compute; reflexivity).
  do 3 (split; [reflexivity|]). split; [exact Hdef|]. split; [exact Hfail|].
  destruct (Output_failure_writes_empty_line example_env chan_heap 2%positive
              (mkLogger (Some 1%positive) None 0 (Some 1%positive) SNil)
              1%positive root_StdLogger [] "hello"
              eq_refl eq_refl eq_refl eq_refl Hdef Hfail)
    as (h' & Hrun & Hsinks & _).
  exists h'. split; [exact Hrun | exact Hsinks].
Defined.

(** C10. For every configuration whose level is none of the six
    constants, [Level.String] gives the empty string and [Output], for
    any message, returns without a [Write]: every writer has received
    what it had received before. *)
Theorem Output_undefined_level_silent env h l L message :
  loggers h !! l = Some L →
  ¬ defined_level (level L) →
  Level_String (level L) = "" ∧
  ∃ h', Output env l message h = Done tt h' ∧
        sinks h' = sinks h ∧
        loggers h' = loggers h ∧ stdlogs h' = stdlogs h ∧ arrays h' = arrays h.
Proof.
  intros Hl Hundef. split.
  - move: Hundef. rewrite /Level_String /defined_level /LevelDebug /LevelInfo /LevelWarn
      /LevelError /LevelFatal /LevelPanic. intros Hundef.
    repeat case_bool_decide; first [reflexivity | lia].
  - rewrite (Output_Done env h l L message Hl) bool_decide_false //.
    eexists. split; [reflexivity|]. repeat split; reflexivity.
Qed.

Lemma Output_undefined_level_silent_witness :
  loggers level9_heap !! 2%positive = Some level9_Logger ∧
  ¬ defined_level (level level9_Logger) ∧
  Level_String 9 = "" ∧
  ∃ h', Output example_env 2%positive "hello" level9_heap = Done tt h' ∧
        sinks h' = sinks level9_heap.
Proof.
  assert (¬ defined_level (level level9_Logger)) as Hundef.
  { intros [_ H]. apply H. reflexivity. }
  split; [reflexivity|]. split; [exact Hundef|].
  destruct (Output_undefined_level_silent example_env level9_heap 2%positive level9_Logger
              "hello" eq_refl Hundef)
    as (Hstring & h' & Hrun & Hsinks & _).
  split; [exact Hstring|]. exists h'. split; [exact Hrun | exact Hsinks].
Defined.

(** ** Leveled calls *)

Lemma Severity_level_defined sev : defined_level (Severity_level sev).
Proof. destruct sev; split; discriminate. Qed.

(** C7. For each of the six severities, the variadic and the
    format-template entry point are the composition the specification
    names: a configuration with that severity is derived by [WithLevel]
    and the text of [fmt.Sprint], or of [fmt.Sprintf], is emitted through
    [Output]. On a configuration with a line writer the composition
    returns normally for every severity, [fatal] and [panic] included: it
    neither panics nor ends the process; the writer has received one more
    line, that of a record whose [level] member is the severity's name;
    and the receiver's struct is as it was. *)
Theorem leveled_calls_emit_at_level fmt_Sprint fmt_Sprintf env h l L p sl received sev :
  loggers h !! l = Some L → newLogger L = Some p →
  stdlogs h !! p = Some sl → sinks h !! out sl = Some received →
  (∀ v, variadic_call fmt_Sprint sev env l v
        = emit_at_level (Severity_level sev) env l (fmt_Sprint v)) ∧
  (∀ format v, format_call fmt_Sprintf sev env l format v
               = emit_at_level (Severity_level sev) env l (fmt_Sprintf format v)) ∧
  (∀ message, ∃ h',
     emit_at_level (Severity_level sev) env l message h = Done tt h' ∧
     sinks h'
     = <[out sl := received ++
           [log_line env sl
              (default ""
                 (json.encode_object (arrays h)
                    (record env h (put_level (Severity_level sev) L) message)))]]>
         (sinks h) ∧
     record env h (put_level (Severity_level sev) L) message !! "level"
     = Some (VString (Level_String (Severity_level sev))) ∧
     loggers h' !! l = Some L ∧ stdlogs h' = stdlogs h ∧ arrays h' = arrays h).
Proof.
  intros Hl Hp Hsl Hw.
  split; [intros v; destruct sev; reflexivity|].
  split; [intros format v; destruct sev; reflexivity|].
  intros message. rewrite /emit_at_level.
  rewrite (mbind_Done _ _ h _ _ (WithLevel_Done h l L (Severity_level sev) Hl)).
  set (ll := fresh (dom (loggers h))).
  set (L' := put_level (Severity_level sev) L).
  set (h0 := set_loggers (insert ll L') h).
  assert (loggers h0 !! ll = Some L') as Hll by apply lookup_insert_eq.
  destruct (Output_defined_level env h0 ll L' p sl received message Hll Hp Hsl Hw
              (Severity_level_defined sev))
    as (h' & Hrun & Hsinks & Hlog & Hstd & Harr).
  exists h'. split; [exact Hrun|].
  rewrite (serialized_record env h0 ll L' message Hll) in Hsinks.
  split; [exact Hsinks|].
  split; [by rewrite record_lookup reserved_level|].
  split; [|split; [exact Hstd | exact Harr]].
  rewrite Hlog. exact (lookup_after_alloc h l L L' Hl).
Qed.

Lemma leveled_calls_emit_at_level_witness :
  loggers root_heap !! 1%positive = Some root_Logger ∧
  stdlogs root_heap !! 1%positive = Some root_StdLogger ∧
  sinks root_heap !! 1%positive = Some [] ∧
  ∃ h', Fatal (λ _, "db timeout") example_env 1%positive [] root_heap = Done tt h' ∧
        loggers h' !! 1%positive = Some root_Logger ∧
        record example_env root_heap (put_level LevelFatal root_Logger) "db timeout"
          !! "level" = Some (VString "fatal").
Proof.
  do 3 (split; [reflexivity|]).
  destruct (leveled_calls_emit_at_level (λ _, "db timeout") (λ format _, format)
              example_env root_heap 1%positive root_Logger 1%positive root_StdLogger []
              SFatal eq_refl eq_refl eq_refl eq_refl)
    as (Hvariadic & _ & Hemit).
  destruct (Hemit "db timeout") as (h' & Hrun & _ & Hlevel & Hkept & _).
  exists h'. split; [exact (eq_trans (f_equal (λ c, c root_heap) (Hvariadic [])) Hrun)|].
  split; [exact Hkept | exact Hlevel].
Defined.

(** * Further properties *)

(** ** Levels *)

(** X1. [Level.String] names exactly the six constants: the name is empty
    if and only if the level is none of them, and two of the six levels
    with the same name are the same level. *)
Theorem Level_String_names_defined_levels (a b : Z) :
  (Level_String a = "" ↔ ¬ defined_level a) ∧
  (defined_level a → defined_level b → Level_String a = Level_String b → a = b).
Proof.
  rewrite /Level_String /defined_level /LevelDebug /LevelInfo /LevelWarn /LevelError
    /LevelFatal /LevelPanic.
  split; [split|].
  - repeat case_bool_decide; first [discriminate | lia].
  - intros Hundef. repeat case_bool_decide; first [reflexivity | lia].
  - intros Ha Hb. repeat case_bool_decide; first [discriminate | lia].
Qed.

Lemma Level_String_names_defined_levels_witness :
  ¬ defined_level 9 ∧ Level_String 9 = "".
Proof.
  assert (¬ defined_level 9) as Hundef.
  { intros [_ H]. apply H. reflexivity. }
  split; [exact Hundef|].
  exact (proj2 (proj1 (Level_String_names_defined_levels 9 0)) Hundef).
Defined.

(** ** Derivations *)

(** Every derivation method, on a receiver that exists, returns
    normally with a struct at an address that was free; every struct that
    existed, the receiver's included, is as it was; no writer has
    received anything and no line writer has changed. The derived struct
    has the receiver's line writer; its level is the receiver's unless
    the method is [WithLevel], its context the receiver's unless the
    method is [WithContext]. *)
Lemma derive_step d h l L :
  loggers h !! l = Some L →
  ∃ ll h' L',
    derive d l h = Done ll h' ∧
    loggers h !! ll = None ∧
    loggers h' = <[ll := L']> (loggers h) ∧
    newLogger L' = newLogger L ∧
    level L' = (if d is DLevel lvl then lvl else level L) ∧
    ctx L' = (if d is DContext c then c else ctx L) ∧
    stdlogs h' = stdlogs h ∧ sinks h' = sinks h.
Proof.
  intros Hl. pose proof (fresh_logger h) as Hfresh.
  destruct d as [lvl|f|c|env skip|env]; cbn [derive].
  - eexists _, _, _. split; [exact (WithLevel_Done h l L lvl Hl)|].
    repeat split; try reflexivity. exact Hfresh.
  - destruct (WithFields_Done h l L f Hl) as (h' & Hrun & Hlog & Hstd & _ & Hsnk & _).
    eexists _, h', _. split; [exact Hrun|]. split; [exact Hfresh|].
    split; [exact Hlog|]. repeat split; try reflexivity; assumption.
  - eexists _, _, _. split; [exact (WithContext_Done h l L c Hl)|].
    repeat split; try reflexivity. exact Hfresh.
  - destruct (runtime_Caller env skip) as [[[pc file] line] [|]] eqn:Hc.
    + eexists _, _, _.
      split; [exact (WithCaller_Done_frame env h l L skip pc file line Hl Hc)|].
      repeat split; try reflexivity. exact Hfresh.
    + eexists _, _, _.
      split; [exact (WithCaller_Done_no_frame env h l L skip pc file line Hl Hc)|].
      repeat split; try reflexivity. exact Hfresh.
  - eexists _, _, _. split; [exact (WithCallersFrames_Done env h l L Hl)|].
    repeat split; try reflexivity. exact Hfresh.
Qed.

(** What a chain of derivations does, for the statements below. *)
Lemma derive_chain_Done ds h l L :
  loggers h !! l = Some L →
  ∃ ll h' L',
    derive_chain ds l h = Done ll h' ∧
    loggers h' !! ll = Some L' ∧
    (∀ x X, loggers h !! x = Some X → loggers h' !! x = Some X) ∧
    newLogger L' = newLogger L ∧
    level L' = foldl (λ acc d, if d is DLevel lvl then lvl else acc) (level L) ds ∧
    ctx L' = foldl (λ acc d, if d is DContext c then c else acc) (ctx L) ds ∧
    stdlogs h' = stdlogs h ∧ sinks h' = sinks h.
Proof.
  revert h l L. induction ds as [|d ds IH]; intros h l L Hl.
  - exists l, h, L. repeat split; try reflexivity; try assumption. intros x X Hx. exact Hx.
  - destruct (derive_step d h l L Hl)
      as (l1 & h1 & L1 & Hrun1 & Hfree & Hlog1 & Hnew1 & Hlevel1 & Hctx1 & Hstd1 & Hsnk1).
    assert (loggers h1 !! l1 = Some L1) as Hl1 by (rewrite Hlog1; apply lookup_insert_eq).
    destruct (IH h1 l1 L1 Hl1)
      as (ll & h' & L' & Hrun & Hll & Hkeep & Hnew & Hlevel & Hctx & Hstd & Hsnk).
    exists ll, h', L'. cbn [derive_chain foldl].
    split; [rewrite (mbind_Done _ _ h l1 h1 Hrun1); exact Hrun|].
    split; [exact Hll|]. split.
    { intros x X Hx. apply Hkeep. rewrite Hlog1 lookup_insert_ne; [|exact Hx].
      intros <-. rewrite Hfree in Hx. discriminate Hx. }
    split; [by rewrite Hnew Hnew1|].
    split; [by rewrite Hlevel Hlevel1|].
    split; [by rewrite Hctx Hctx1|].
    split; [by rewrite Hstd Hstd1 | by rewrite Hsnk Hsnk1].
Qed.


(** X2. Any chain of derivations from a receiver that exists returns
    normally. Every struct that existed at the start, the receiver's
    included, is as it was; no writer has received anything and no line
    writer has changed. The struct at the end of the chain has the
    receiver's line writer; its level is that of the last [WithLevel] in
    the chain, or the receiver's when there is none, and likewise its
    context with [WithContext]. *)
Theorem derive_chain_frame ds h l L :
  loggers h !! l = Some L →
  ∃ ll h' L',
    derive_chain ds l h = Done ll h' ∧
    loggers h' !! ll = Some L' ∧
    (∀ x X, loggers h !! x = Some X → loggers h' !! x = Some X) ∧
    newLogger L' = newLogger L ∧
    level L' = foldl (λ acc d, if d is DLevel lvl then lvl else acc) (level L) ds ∧
    ctx L' = foldl (λ acc d, if d is DContext c then c else acc) (ctx L) ds ∧
    stdlogs h' = stdlogs h ∧ sinks h' = sinks h.
Proof. exact (derive_chain_Done ds h l L). Qed.

Lemma derive_chain_frame_witness :
  loggers root_heap !! 1%positive = Some root_Logger ∧
  ∃ ll h' L',
    derive_chain [DFields {[ "service" := VString "auth" ]}; DLevel LevelWarn;
                  DCaller example_env 1; DLevel LevelError; DCallersFrames example_env]
      1%positive root_heap = Done ll h' ∧
    loggers h' !! ll = Some L' ∧
    level L' = LevelError ∧
    loggers h' !! 1%positive = Some root_Logger ∧
    sinks h' = sinks root_heap.
Proof.
  split; [reflexivity|].
  destruct (derive_chain_frame
              [DFields {[ "service" := VString "auth" ]}; DLevel LevelWarn;
               DCaller example_env 1; DLevel LevelError; DCallersFrames example_env]
              root_heap 1%positive root_Logger eq_refl)
    as (ll & h' & L' & Hrun & Hll & Hkeep & _ & Hlevel & _ & _ & Hsinks).
  exists ll, h', L'. split; [exact Hrun|]. split; [exact Hll|].
  split; [exact Hlevel|]. split; [exact (Hkeep 1%positive root_Logger eq_refl) | exact Hsinks].
Defined.

(** Two children of one configuration, by [WithLevel]: each has its own
    level, in either order of derivation, and the parent keeps its
    own. *)
Lemma WithLevel_twice h l L a b :
  loggers h !! l = Some L →
  ∃ la h1 lb h2,
    WithLevel l a h = Done la h1 ∧ WithLevel l b h1 = Done lb h2 ∧
    level <$> (loggers h2 !! la) = Some a ∧
    level <$> (loggers h2 !! lb) = Some b ∧
    loggers h2 !! l = Some L.
Proof.
  intros Hl.
  set (la := fresh (dom (loggers h))).
  set (h1 := set_loggers (insert la (put_level a L)) h).
  assert (loggers h1 !! l = Some L) as Hl1 by exact (lookup_after_alloc h l L _ Hl).
  assert (loggers h1 !! la = Some (put_level a L)) as Hla by apply lookup_insert_eq.
  exists la, h1, (fresh (dom (loggers h1))),
    (set_loggers (insert (fresh (dom (loggers h1))) (put_level b L)) h1).
  split; [exact (WithLevel_Done h l L a Hl)|].
  split; [exact (WithLevel_Done h1 l L b Hl1)|].
  split; [by rewrite (lookup_after_alloc h1 la _ _ Hla)|].
  split; [by rewrite /= lookup_insert_eq|].
  exact (lookup_after_alloc h1 l L _ Hl1).
Qed.

(** X3. Deriving two children from one configuration by [WithLevel(a)]
    and [WithLevel(b)] gives the first level [a] and the second level
    [b], and leaves the parent's struct as it was, in whichever order the
    two are derived. *)
Theorem WithLevel_children_independent h l L a b :
  loggers h !! l = Some L →
  (∃ la h1 lb h2,
     WithLevel l a h = Done la h1 ∧ WithLevel l b h1 = Done lb h2 ∧
     level <$> (loggers h2 !! la) = Some a ∧
     level <$> (loggers h2 !! lb) = Some b ∧
     loggers h2 !! l = Some L) ∧
  (∃ lb h1 la h2,
     WithLevel l b h = Done lb h1 ∧ WithLevel l a h1 = Done la h2 ∧
     level <$> (loggers h2 !! la) = Some a ∧
     level <$> (loggers h2 !! lb) = Some b ∧
     loggers h2 !! l = Some L).
Proof.
  intros Hl. split; [exact (WithLevel_twice h l L a b Hl)|].
  destruct (WithLevel_twice h l L b a Hl) as (lb & h1 & la & h2 & H1 & H2 & Hb & Ha & Hkeep).
  exists lb, h1, la, h2. repeat split; assumption.
Qed.

Lemma WithLevel_children_independent_witness :
  loggers service_heap !! 2%positive = Some service_Logger ∧
  ∃ la h1 lb h2,
    WithLevel 2%positive LevelInfo service_heap = Done la h1 ∧
    WithLevel 2%positive LevelFatal h1 = Done lb h2 ∧
    level <$> (loggers h2 !! la) = Some LevelInfo ∧
    level <$> (loggers h2 !! lb) = Some LevelFatal ∧
    loggers h2 !! 2%positive = Some service_Logger.
Proof.
  split; [reflexivity|].
  exact (proj1 (WithLevel_children_independent service_heap 2%positive service_Logger
                  LevelInfo LevelFatal eq_refl)).
Defined.

(** ** Field sets of derived configurations *)

(** X4. The field set of the configuration [WithFields(f)] returns is [f]
    laid over the receiver's field set: a key of [f] has the value [f]
    gives it, replacing the receiver's value if there was one, and any
    other key has what the receiver has for it. With no additions the
    field set is the receiver's. *)
Theorem WithFields_merge h l L f :
  loggers h !! l = Some L →
  ∃ ll h',
    WithFields l f h = Done ll h' ∧
    field_set h' ll = f ∪ field_set h l ∧
    (∀ k v, f !! k = Some v → field_set h' ll !! k = Some v) ∧
    (∀ k, f !! k = None → field_set h' ll !! k = field_set h l !! k) ∧
    (f = ∅ → field_set h' ll = field_set h l).
Proof.
  intros Hl. destruct (WithFields_Done h l L f Hl)
    as (h' & Hrun & Hlog & _ & _ & _ & Hview & _).
  exists (fresh (dom (loggers h))), h'. split; [exact Hrun|].
  assert (field_set h' (fresh (dom (loggers h))) = f ∪ field_set h l) as Hset.
  { rewrite /field_set Hlog lookup_insert_eq Hl. exact Hview. }
  split; [exact Hset|]. rewrite Hset. split; [|split].
  - intros k v Hk. rewrite lookup_union Hk. by destruct (field_set h l !! k).
  - intros k Hk. rewrite lookup_union Hk. by rewrite left_id_L.
  - intros ->. by rewrite left_id_L.
Qed.

Lemma WithFields_merge_witness :
  loggers service_heap !! 2%positive = Some service_Logger ∧
  ∃ ll h',
    WithFields 2%positive {[ "service" := VString "billing"; "region" := VString "eu" ]}
      service_heap = Done ll h' ∧
    field_set h' ll !! "service" = Some (VString "billing") ∧
    field_set h' ll !! "region" = Some (VString "eu").
Proof.
  split; [reflexivity|].
  destruct (WithFields_merge service_heap 2%positive service_Logger
              {[ "service" := VString "billing"; "region" := VString "eu" ]} eq_refl)
    as (ll & h' & Hrun & _ & Hadd & _).
  exists ll, h'. split; [exact Hrun|]. split.
  - apply Hadd. vm_compute. reflexivity.
  - apply Hadd. vm_compute. reflexivity.
Defined.

Lemma foldl_assign_allocated m kvs h a :
  is_Some (maps h !! a) → is_Some (maps (foldl (assign m) h kvs) !! a).
Proof.
  revert h. induction kvs as [|kv kvs IH]; intros h Ha; [exact Ha|].
  cbn [foldl]. apply IH. rewrite /assign /set_maps. cbn [maps].
  destruct (decide (a = m)) as [->|Hne].
  - rewrite lookup_insert_eq. eexists. reflexivity.
  - rewrite lookup_insert_ne; [congruence | exact Ha].
Qed.

(** The map object [WithFields] makes for a receiver without one exists
    afterwards, even when there is nothing to add. *)
Lemma WithFields_nil_allocates h l L f ll h' :
  loggers h !! l = Some L → fields L = None →
  WithFields l f h = Done ll h' →
  is_Some (maps h' !! fresh (dom (maps h))).
Proof.
  intros Hl Hm. rewrite /WithFields.
  rewrite (mbind_Done _ _ h _ _ (clone_Done h l L Hl)).
  set (l1 := fresh (dom (loggers h))). set (h1 := set_loggers (insert l1 L) h).
  assert (loggers h1 !! l1 = Some L) as Hl1 by apply lookup_insert_eq.
  rewrite (mbind_Done _ _ h1 L h1 (load_Done h1 l1 L Hl1)) Hm.
  set (m := fresh (dom (maps h))).
  set (h2 := set_loggers (insert l1 (put_fields (Some m) L)) (set_maps (insert m ∅) h1)).
  rewrite (mbind_Done _ _ h1 tt h2).
  { rewrite (mbind_Done make_map _ h1 m (set_maps (insert m ∅) h1) eq_refl).
    rewrite /update. cbn [loggers set_maps]. rewrite Hl1. reflexivity. }
  rewrite (mbind_Done _ _ h2 tt _
             (WithFields_loop_Done (map_to_list f) h2 l1 (put_fields (Some m) L) m
                (lookup_insert_eq _ _ _) eq_refl)).
  intros [= _ <-]. apply foldl_assign_allocated.
  rewrite /h2 /set_loggers /set_maps. cbn [maps]. rewrite lookup_insert_eq. eexists. reflexivity.
Qed.

(** X5. Two configurations derived by [WithFields] from one receiver
    whose field map is nil have a map object each: after both
    derivations the first child shows exactly its own additions, the
    second exactly its own, and the receiver none. *)
Theorem WithFields_children_of_nil_independent h l L f1 f2 :
  loggers h !! l = Some L → fields L = None →
  ∃ d1 h1 d2 h2,
    WithFields l f1 h = Done d1 h1 ∧ WithFields l f2 h1 = Done d2 h2 ∧
    field_set h2 d1 = f1 ∧ field_set h2 d2 = f2 ∧ field_set h2 l = ∅.
Proof.
  intros Hl Hm.
  destruct (WithFields_Done h l L f1 Hl) as (h1 & Hrun1 & Hlog1 & _ & _ & _ & Hview1 & _).
  rewrite Hm /= in Hlog1, Hview1. rewrite right_id_L in Hview1.
  set (d1 := fresh (dom (loggers h))) in *. set (m1 := fresh (dom (maps h))) in *.
  assert (loggers h1 !! l = Some L) as Hl1
    by exact (WithFields_keeps_structs h l f1 d1 h1 l L Hrun1 Hl).
  assert (loggers h1 !! d1 = Some (put_fields (Some m1) L)) as Hd1
    by (rewrite Hlog1; apply lookup_insert_eq).
  destruct (WithFields_nil_allocates h l L f1 d1 h1 Hl Hm Hrun1) as [x1 Hx1].
  destruct (WithFields_Done h1 l L f2 Hl1)
    as (h2 & Hrun2 & Hlog2 & _ & _ & _ & Hview2 & Hother2).
  rewrite Hm /= in Hlog2, Hview2, Hother2. rewrite right_id_L in Hview2.
  set (d2 := fresh (dom (loggers h1))) in *. set (m2 := fresh (dom (maps h1))) in *.
  exists d1, h1, d2, h2. split; [exact Hrun1|]. split; [exact Hrun2|].
  assert (m1 ≠ m2) as Hne by exact (allocated_not_fresh (maps h1) m1 x1 Hx1).
  split; [|split].
  - rewrite /field_set (WithFields_keeps_structs h1 l f2 d2 h2 d1 _ Hrun2 Hd1).
    rewrite /= (Hother2 m1 Hne). exact Hview1.
  - rewrite /field_set Hlog2 lookup_insert_eq. exact Hview2.
  - apply (field_set_nil h2 l L); [|exact Hm].
    exact (WithFields_keeps_structs h1 l f2 d2 h2 l L Hrun2 Hl1).
Qed.

Lemma WithFields_children_of_nil_independent_witness :
  loggers root_heap !! 1%positive = Some root_Logger ∧
  fields root_Logger = None ∧
  ∃ d1 h1 d2 h2,
    WithFields 1%positive {[ "request" := VString "a" ]} root_heap = Done d1 h1 ∧
    WithFields 1%positive {[ "request" := VString "b" ]} h1 = Done d2 h2 ∧
    field_set h2 d1 = {[ "request" := VString "a" ]} ∧
    field_set h2 d2 = {[ "request" := VString "b" ]} ∧
    field_set h2 1%positive = ∅.
Proof.
  split; [reflexivity|]. split; [reflexivity|].
  exact (WithFields_children_of_nil_independent root_heap 1%positive root_Logger
           {[ "request" := VString "a" ]} {[ "request" := VString "b" ]} eq_refl eq_refl).
Defined.

(** X6. Configurations derived by [WithFields] from a receiver that has a
    field map refer to that one map object: after deriving a first child
    with [f1] and a second with [f2], the first child, the second child
    and the receiver all show [f2] laid over [f1] laid over what the
    receiver showed at the start. *)
Theorem WithFields_children_share_map h l L m f1 f2 :
  loggers h !! l = Some L → fields L = Some m →
  ∃ d1 h1 d2 h2,
    WithFields l f1 h = Done d1 h1 ∧ WithFields l f2 h1 = Done d2 h2 ∧
    field_set h1 d1 = f1 ∪ field_set h l ∧
    field_set h2 d1 = f2 ∪ (f1 ∪ field_set h l) ∧
    field_set h2 d2 = f2 ∪ (f1 ∪ field_set h l) ∧
    field_set h2 l = f2 ∪ (f1 ∪ field_set h l).
Proof.
  intros Hl Hm.
  destruct (WithFields_shares_map h l L m f1 Hl Hm) as (d1 & h1 & Hrun1 & Hl1 & Hd1 & Hset1).
  destruct (WithFields_shares_map h1 l L m f2 Hl1 Hm) as (d2 & h2 & Hrun2 & Hl2 & Hd2 & Hset2).
  exists d1, h1, d2, h2. split; [exact Hrun1|]. split; [exact Hrun2|].
  assert (loggers h2 !! d1 = Some L) as Hd1'
    by exact (WithFields_keeps_structs h1 l f2 d2 h2 d1 L Hrun2 Hd1).
  assert (∀ h0 x, loggers h0 !! x = Some L → loggers h0 !! l = Some L →
                  field_set h0 x = field_set h0 l) as Hsame.
  { intros h0 x Hx Hl0. by rewrite /field_set Hx Hl0. }
  rewrite (Hsame h1 d1 Hd1 Hl1) (Hsame h2 d1 Hd1' Hl2) (Hsame h2 d2 Hd2 Hl2) Hset2 Hset1.
  repeat split; reflexivity.
Qed.

Lemma WithFields_children_share_map_witness :
  loggers service_heap !! 2%positive = Some service_Logger ∧
  fields service_Logger = Some 1%positive ∧
  ∃ d1 h1 d2 h2,
    WithFields 2%positive {[ "request" := VString "a" ]} service_heap = Done d1 h1 ∧
    WithFields 2%positive {[ "request" := VString "b" ]} h1 = Done d2 h2 ∧
    field_set h1 d1 !! "request" = Some (VString "a") ∧
    field_set h2 d1 !! "request" = Some (VString "b").
Proof.
  split; [reflexivity|]. split; [reflexivity|].
  destruct (WithFields_children_share_map service_heap 2%positive service_Logger 1%positive
              {[ "request" := VString "a" ]} {[ "request" := VString "b" ]} eq_refl eq_refl)
    as (d1 & h1 & d2 & h2 & Hrun1 & Hrun2 & Hset1 & Hset2 & _).
  exists d1, h1, d2, h2. split; [exact Hrun1|]. split; [exact Hrun2|]. split.
  - rewrite Hset1. vm_compute. reflexivity.
  - rewrite Hset2. vm_compute. reflexivity.
Defined.

(** ** Records and emission again *)

Lemma dom_reserved env L message :
  dom (reserved env L message) = ({[ "level"; "time"; "message"; "callers" ]} : gset string).
Proof. rewrite /reserved !dom_insert_L dom_empty_L. set_solver. Qed.

(** X7. The keys of the record [JSONFormat] builds are the four reserved
    keys and the keys of the configuration's field set, and no others; a
    configuration without fields gives a record of exactly four members.
    The record is a new map object: every map object that existed is as
    it was, and so are the structs, the arrays, the line writers and
    what the writers have received. *)
Theorem JSONFormat_keys env h l L message :
  loggers h !! l = Some L →
  ∃ data h',
    JSONFormat env l message h = Done data h' ∧
    maps h !! data = None ∧
    dom (map_view h' (Some data))
    = {[ "level"; "time"; "message"; "callers" ]} ∪ dom (field_set h l) ∧
    (field_set h l = ∅ → size (map_view h' (Some data)) = 4%nat) ∧
    (∀ a, a ≠ data → maps h' !! a = maps h !! a) ∧
    loggers h' = loggers h ∧ arrays h' = arrays h ∧
    stdlogs h' = stdlogs h ∧ sinks h' = sinks h.
Proof.
  intros Hl. eexists _, _. split; [exact (JSONFormat_Done env h l L message Hl)|].
  split; [apply fresh_map|].
  rewrite /map_view maps_set_maps_insert. cbn [default].
  assert (field_set h l = map_view h (fields L)) as Hset by (by rewrite /field_set Hl).
  rewrite Hset. split; [|split; [|split]].
  - rewrite /record dom_union_L dom_reserved. reflexivity.
  - intros Hempty. rewrite /record Hempty right_id_L.
    rewrite -size_dom dom_reserved. vm_compute. reflexivity.
  - intros a Ha. rewrite /set_maps. cbn [maps]. rewrite lookup_insert_ne; [congruence|reflexivity].
  - repeat split; reflexivity.
Qed.

Lemma JSONFormat_keys_witness :
  loggers collide_heap !! 2%positive
  = Some (mkLogger (Some 1%positive) None 0 (Some 1%positive) SNil) ∧
  ∃ data h',
    JSONFormat example_env 2%positive "hello" collide_heap = Done data h' ∧
    dom (map_view h' (Some data))
    = {[ "level"; "time"; "message"; "callers"; "service" ]}.
Proof.
  split; [reflexivity|].
  destruct (JSONFormat_keys example_env collide_heap 2%positive
              (mkLogger (Some 1%positive) None 0 (Some 1%positive) SNil) "hello" eq_refl)
    as (data & h' & Hrun & _ & Hdom & _).
  exists data, h'. split; [exact Hrun|]. rewrite Hdom. vm_compute. reflexivity.
Defined.

Lemma log_Print_frame env p s h h' :
  log_Print env p s h = Done tt h' →
  loggers h' = loggers h ∧ maps h' = maps h ∧ arrays h' = arrays h ∧ stdlogs h' = stdlogs h.
Proof.
  destruct p as [a|]; [|discriminate]. rewrite /log_Print.
  destruct (stdlogs h !! a) as [sl|]; [|discriminate]. rewrite /Writer_Write.
  destruct (sinks h !! out sl) as [received|]; [|discriminate].
  intros [= <-]. repeat split; reflexivity.
Qed.

(** X8. Emission changes no configuration. When [Output] returns, every
    struct is as it was, and every configuration whose field map, if it
    has one, existed before the call shows the field set and the caller
    sequence it showed before, whatever the level and whether or not the
    record could be serialized. *)
Theorem Output_keeps_configurations env h l L message h' :
  loggers h !! l = Some L →
  Output env l message h = Done tt h' →
  loggers h' = loggers h ∧ arrays h' = arrays h ∧ stdlogs h' = stdlogs h ∧
  ∀ x X, loggers h !! x = Some X →
         (∀ m, fields X = Some m → is_Some (maps h !! m)) →
         field_set h' x = field_set h x ∧ caller_seq h' x = caller_seq h x.
Proof.
  intros Hl. rewrite (Output_Done env h l L message Hl).
  set (h1 := set_maps _ h). intros Hrun.
  assert (loggers h' = loggers h ∧ maps h' = maps h1 ∧ arrays h' = arrays h ∧
          stdlogs h' = stdlogs h) as (Hlog & Hmaps & Harr & Hstd).
  { destruct (bool_decide (defined_level (level L))).
    - exact (log_Print_frame env _ _ h1 h' Hrun).
    - injection Hrun as <-. repeat split; reflexivity. }
  split; [exact Hlog|]. split; [exact Harr|]. split; [exact Hstd|].
  intros x X Hx Halloc. rewrite /field_set /caller_seq Hlog Harr Hx. split; [|reflexivity].
  destruct (fields X) as [m|] eqn:Hm; [|reflexivity].
  destruct (Halloc m eq_refl) as [d Hd].
  rewrite /map_view Hmaps /h1 /set_maps. cbn [maps].
  rewrite lookup_insert_ne; [|reflexivity].
  intros E. apply (allocated_not_fresh (maps h) m d Hd). by rewrite E.
Qed.

Lemma Output_keeps_configurations_witness :
  loggers service_heap !! 2%positive = Some service_Logger ∧
  ∃ h', Output example_env 2%positive "hello" service_heap = Done tt h' ∧
        loggers h' = loggers service_heap ∧
        field_set h' 2%positive = field_set service_heap 2%positive.
Proof.
  split; [reflexivity|].
  assert (∃ h', Output example_env 2%positive "hello" service_heap = Done tt h') as [h' Hrun].
  { eexists. vm_compute. reflexivity. }
  destruct (Output_keeps_configurations example_env service_heap 2%positive service_Logger
              "hello" h' eq_refl Hrun)
    as (Hlog & _ & _ & Hkeep).
  exists h'. split; [exact Hrun|]. split; [exact Hlog|].
  refine (proj1 (Hkeep 2%positive service_Logger eq_refl _)).
  intros m [= <-]. eexists. vm_compute. reflexivity.
Defined.

(** ** The stack walk in closed form *)

Lemma frames_loop_take frames :
  frames_loop frames [] = Frame_text <$> take (length frames - 1) frames.
Proof.
  destruct (decide (frames = [])) as [->|Hne]; [reflexivity|].
  destruct (exists_last Hne) as (init & final & ->).
  rewrite frames_loop_init length_app /= Nat.add_sub take_app_length //.
Qed.

(** X9. The caller sequence [WithCallersFrames] stores, in terms of the
    call stack: the walk starts at the frame of [WithCallersFrames]
    itself (only the frame of [runtime.Callers] is skipped) and the last
    frame walked is left out, so the sequence is the rendering of the
    frames from [WithCallersFrames] outward, all but the outermost, and
    never more than 24 of them. When the method has a caller that has a
    caller, the first entry is the frame of [WithCallersFrames]. *)
Theorem WithCallersFrames_closed_form env h l L :
  loggers h !! l = Some L →
  ∃ ll h',
    WithCallersFrames env l h = Done ll h' ∧
    caller_seq h' ll
    = Frame_text <$> take (min 24 (length (stack env) - 2)) (drop 1 (stack env)) ∧
    (length (caller_seq h' ll) ≤ 24)%nat ∧
    (∀ entry self caller rest,
       stack env = entry :: self :: caller :: rest →
       head (caller_seq h' ll) = Some (Frame_text self)).
Proof.
  intros Hl. destruct (WithCallersFrames_caller_seq env h l L Hl)
    as (ll & h' & Hrun & _ & Hseq).
  exists ll, h'. split; [exact Hrun|].
  assert (caller_seq h' ll
          = Frame_text <$> take (min 24 (length (stack env) - 2)) (drop 1 (stack env)))
    as Hclosed.
  { rewrite Hseq frames_loop_take /runtime_Callers.
    change (Z.to_nat 1) with 1%nat.
    rewrite take_take length_take length_drop. f_equal. f_equal. lia. }
  split; [exact Hclosed|]. rewrite Hclosed. split.
  - rewrite length_fmap length_take. lia.
  - intros entry self caller rest ->. reflexivity.
Qed.

Lemma WithCallersFrames_closed_form_witness :
  loggers root_heap !! 1%positive = Some root_Logger ∧
  ∃ ll h',
    WithCallersFrames example_env 1%positive root_heap = Done ll h' ∧
    head (caller_seq h' ll)
    = Some "pkg/logger/logger.go: 115 logger.(*Logger).WithCallersFrames".
Proof.
  split; [reflexivity|].
  destruct (WithCallersFrames_closed_form example_env root_heap 1%positive root_Logger
              eq_refl)
    as (ll & h' & Hrun & _ & _ & Hhead).
  exists ll, h'. split; [exact Hrun|].
  exact (eq_trans (Hhead _ _ _ _ eq_refl) eq_refl).
Defined.

(** ** When a record serializes *)

Lemma insert_key_perm kv l : json.insert_key kv l ≡ₚ kv :: l.
Proof.
  induction l as [|kv' l IH]; [reflexivity|]. cbn [json.insert_key].
  destruct (String.leb kv.1 kv'.1); [reflexivity|].
  rewrite IH. apply Permutation_swap.
Qed.

Lemma sort_keys_perm l : json.sort_keys l ≡ₚ l.
Proof.
  induction l as [|kv l IH]; [reflexivity|].
  rewrite /json.sort_keys. cbn [foldr]. rewrite insert_key_perm. f_equiv. exact IH.
Qed.

(** A map has a JSON object if and only if each of its members has a
    JSON form. *)
Lemma encode_object_is_Some arrs (m : gmap string value) :
  is_Some (json.encode_object arrs m)
  ↔ ∀ k v, m !! k = Some v → is_Some (json.encode arrs v).
Proof.
  rewrite /json.encode_object.
  assert (Forall (is_Some ∘ json.encode_member arrs) (json.sort_keys (map_to_list m))
          ↔ ∀ k v, m !! k = Some v → is_Some (json.encode arrs v)) as Hall.
  { rewrite sort_keys_perm Forall_forall. split.
    - intros Hin k v Hk. specialize (Hin (k, v)).
      rewrite elem_of_map_to_list in Hin. specialize (Hin Hk).
      move: Hin. rewrite /= /json.encode_member /=.
      destruct (json.encode arrs v); [eauto | intros [? [=]]].
    - intros Hm [k v] Hin%elem_of_map_to_list.
      destruct (Hm k v Hin) as [body Hbody].
      rewrite /= /json.encode_member /= Hbody /=. eauto. }
  rewrite -Hall -mapM_is_Some.
  destruct (mapM (json.encode_member arrs) (json.sort_keys (map_to_list m))); simpl.
  - split; eauto.
  - split; intros [? [=]].
Qed.

Lemma reserved_encodable arrs env L message k v :
  reserved env L message !! k = Some v → is_Some (json.encode arrs v).
Proof.
  rewrite /reserved. intros Hk.
  repeat (apply lookup_insert_Some in Hk; destruct Hk as [[_ Hv]|[_ Hk]];
          [subst v; try (eexists; reflexivity)|]).
  - destruct (callers L); eexists; reflexivity.
  - rewrite lookup_empty in Hk. discriminate Hk.
Qed.

Lemma reserved_key_lookup env L message k :
  reserved_key k → is_Some (reserved env L message !! k).
Proof.
  intros [-> | [-> | [-> | ->]]];
    [rewrite reserved_level | rewrite reserved_time | rewrite reserved_message
     | rewrite reserved_callers]; eexists; reflexivity.
Qed.

Lemma serialized_is_Some_iff env h l L message :
  loggers h !! l = Some L →
  is_Some (serialized env l message h)
  ↔ ∀ k v, ¬ reserved_key k → map_view h (fields L) !! k = Some v →
           is_Some (json.encode (arrays h) v).
Proof.
  intros Hl. rewrite (serialized_record env h l L message Hl) encode_object_is_Some. split.
  - intros Hall k v Hk Hf. apply (Hall k v).
    rewrite record_lookup reserved_other //.
  - intros Hfields k v. rewrite record_lookup.
    destruct (reserved env L message !! k) as [r|] eqn:Hr.
    + intros [= <-]. exact (reserved_encodable _ env L message k r Hr).
    + apply Hfields. intros Hk.
      destruct (reserved_key_lookup env L message k Hk) as [r' Hr']. congruence.
Qed.

(** X10. The record of a configuration serializes if and only if every
    field under a key that is not reserved has a JSON form. A field named
    like a reserved key never matters: it is not in the record, so even a
    channel under the key [message] leaves the record serializable; and a
    configuration without fields always serializes. *)
Theorem serialized_iff_fields_encodable env h l L message :
  loggers h !! l = Some L →
  (is_Some (serialized env l message h)
   ↔ ∀ k v, ¬ reserved_key k → field_set h l !! k = Some v →
            is_Some (json.encode (arrays h) v)) ∧
  (field_set h l = ∅ → is_Some (serialized env l message h)).
Proof.
  intros Hl.
  assert (field_set h l = map_view h (fields L)) as Hset by (by rewrite /field_set Hl).
  rewrite Hset. split; [exact (serialized_is_Some_iff env h l L message Hl)|].
  intros Hempty. apply (serialized_is_Some_iff env h l L message Hl).
  intros k v _. rewrite Hempty lookup_empty. discriminate.
Qed.

Lemma serialized_iff_fields_encodable_witness :
  loggers chan_message_heap !! 2%positive
  = Some (mkLogger (Some 1%positive) None 0 (Some 1%positive) SNil) ∧
  field_set chan_message_heap 2%positive !! "message" = Some VChan ∧
  is_Some (serialized example_env 2%positive "hello" chan_message_heap).
Proof.
  split; [reflexivity|]. split; [vm_compute; reflexivity|].
  apply (proj1 (serialized_iff_fields_encodable example_env chan_message_heap 2%positive
                  (mkLogger (Some 1%positive) None 0 (Some 1%positive) SNil) "hello"
                  eq_refl)).
  assert (field_set chan_message_heap 2%positive = {[ "message" := VChan ]}) as ->
    by (vm_compute; reflexivity).
  intros k v Hk Hf. apply lookup_singleton_Some in Hf as [<- _].
  exfalso. apply Hk. right. right. left. reflexivity.
Defined.

(** ** The root configuration *)

Lemma NewLogger_Done h w prefix flag :
  NewLogger w prefix flag h
  = Done (fresh (dom (loggers h)))
      (set_loggers
         (insert (fresh (dom (loggers h)))
            (mkLogger (Some (fresh (dom (stdlogs h)))) None 0 None SNil))
         (set_stdlogs (insert (fresh (dom (stdlogs h))) (mkStdLogger w prefix flag)) h)).
Proof. reflexivity. Qed.

(** X11. [NewLogger] writes nothing and makes no map and no array; the
    configuration it returns is at an address that was free, has the
    level [debug] (the zero value), no fields and no callers. Its record
    always serializes, and on a writer that exists its [Output] writes
    one line: the prefix-and-flags header, the JSON text and a newline. A
    configuration just constructed is thus not silent: it emits at
    [debug]. *)
Theorem NewLogger_emits_at_debug env h w prefix flag received message :
  sinks h !! w = Some received →
  ∃ l h1 body h2,
    NewLogger w prefix flag h = Done l h1 ∧
    loggers h !! l = None ∧
    sinks h1 = sinks h ∧ maps h1 = maps h ∧ arrays h1 = arrays h ∧
    Level_String <$> (level <$> (loggers h1 !! l)) = Some "debug" ∧
    field_set h1 l = ∅ ∧ caller_seq h1 l = [] ∧
    serialized env l message h1 = Some body ∧
    Output env l message h1 = Done tt h2 ∧
    sinks h2
    = <[w := received ++ [log_line env (mkStdLogger w prefix flag) body]]> (sinks h).
Proof.
  intros Hw. rewrite NewLogger_Done.
  set (l := fresh (dom (loggers h))). set (p := fresh (dom (stdlogs h))).
  set (L0 := mkLogger (Some p) None 0 None SNil).
  set (sl := mkStdLogger w prefix flag).
  set (h1 := set_loggers (insert l L0) (set_stdlogs (insert p sl) h)).
  assert (loggers h1 !! l = Some L0) as Hl1 by apply lookup_insert_eq.
  assert (stdlogs h1 !! p = Some sl) as Hp by apply lookup_insert_eq.
  destruct (proj2 (serialized_is_Some_iff env h1 l L0 message Hl1)) as [body Hbody].
  { intros k v _. rewrite /= lookup_empty. discriminate. }
  destruct (Output_defined_level env h1 l L0 p sl received message Hl1 eq_refl Hp Hw)
    as (h2 & Hrun & Hsinks & _).
  { split; discriminate. }
  rewrite Hbody in Hsinks.
  exists l, h1, body, h2. split; [reflexivity|]. split; [apply fresh_logger|].
  do 3 (split; [reflexivity|]). split; [by rewrite Hl1|].
  split; [by rewrite /field_set Hl1|]. split; [by rewrite /caller_seq Hl1|].
  split; [exact Hbody|]. split; [exact Hrun | exact Hsinks].
Qed.

Lemma NewLogger_emits_at_debug_witness :
  sinks example_heap !! 1%positive = Some [] ∧
  ∃ l h1 h2,
    NewLogger 1%positive "[blog] " 0 example_heap = Done l h1 ∧
    Output example_env l "started" h1 = Done tt h2 ∧
    length <$> (sinks h2 !! 1%positive) = Some 1%nat.
Proof.
  split; [reflexivity|].
  destruct (NewLogger_emits_at_debug example_env example_heap 1%positive "[blog] " 0 []
              "started" eq_refl)
    as (l & h1 & body & h2 & Hnew & _ & _ & _ & _ & _ & _ & _ & _ & Hrun & Hsinks).
  exists l, h1, h2. split; [exact Hnew|]. split; [exact Hrun|].
  rewrite Hsinks lookup_insert_eq. reflexivity.
Defined.

(** ** Skip depths of [WithCaller] *)

Lemma wrap_int_small z : - 2 ^ 63 ≤ z < 2 ^ 63 → wrap_int z = z.
Proof. intros Hz. rewrite /wrap_int Z.mod_small; lia. Qed.

Lemma WithCaller_capture_cases env h l L skip :
  loggers h !! l = Some L →
  ∃ ll h',
    WithCaller env l skip h = Done ll h' ∧
    (∀ pc file line, runtime_Caller env skip = (pc, file, line, false) →
       caller_seq h' ll = caller_seq h l) ∧
    (∀ pc file line, runtime_Caller env skip = (pc, file, line, true) →
       caller_seq h' ll = [Sprintf_caller file line (Func_Name (FuncForPC env pc))]).
Proof.
  intros Hl. destruct (runtime_Caller env skip) as [[[pc file] line] [|]] eqn:Hc.
  - eexists _, _.
    split; [exact (WithCaller_Done_frame env h l L skip pc file line Hl Hc)|].
    split; [done|]. intros ? ? ? [= <- <- <-].
    rewrite /caller_seq /= lookup_insert_eq /= lookup_insert_eq //.
  - eexists _, _.
    split; [exact (WithCaller_Done_no_frame env h l L skip pc file line Hl Hc)|].
    split; [|done]. intros _ _ _ _. rewrite /caller_seq /= lookup_insert_eq Hl //.
Qed.

(** X12. [WithCaller(skip)] for a skip depth from 0 on: depth 0 is the
    frame of [WithCaller] itself, depth 1 its caller, and so on outward.
    When the stack has a frame at that depth the derived caller sequence
    is that one frame, rendered as file, colon, line and the name
    [FuncForPC] gives for its pc (empty when it gives none); when the
    stack ends before that depth the caller sequence is the
    receiver's. *)
Theorem WithCaller_skip_depth env h l L skip :
  loggers h !! l = Some L →
  0 ≤ skip < 2 ^ 63 - 1 →
  ∃ ll h',
    WithCaller env l skip h = Done ll h' ∧
    (∀ f, stack env !! S (Z.to_nat skip) = Some f →
          caller_seq h' ll
          = [File f +:+ ": " +:+ pretty (Line f) +:+ " "
               +:+ default "" (FuncForPC env (PC f))]) ∧
    ((length (stack env) ≤ S (Z.to_nat skip))%nat →
     caller_seq h' ll = caller_seq h l).
Proof.
  intros Hl Hskip.
  destruct (WithCaller_capture_cases env h l L skip Hl)
    as (ll & h' & Hrun & Hnone & Hsome).
  exists ll, h'. split; [exact Hrun|].
  assert (Z.to_nat (wrap_int (skip + 1)) = S (Z.to_nat skip)) as Hidx.
  { rewrite wrap_int_small; lia. }
  split.
  - intros f Hf. apply (Hsome (PC f) (File f) (Line f)).
    by rewrite /runtime_Caller Hidx Hf.
  - intros Hshort. apply (Hnone 0 "" 0).
    rewrite /runtime_Caller Hidx lookup_ge_None_2 //.
Qed.

Lemma WithCaller_skip_depth_witness :
  loggers root_heap !! 1%positive = Some root_Logger ∧
  0 ≤ 0 < 2 ^ 63 - 1 ∧
  ∃ ll h',
    WithCaller example_env 1%positive 0 root_heap = Done ll h' ∧
    caller_seq h' ll = ["pkg/logger/logger.go: 115 "].
Proof.
  assert (0 ≤ 0 < 2 ^ 63 - 1) as Hskip by (split; [discriminate | reflexivity]).
  split; [reflexivity|]. split; [exact Hskip|].
  destruct (WithCaller_skip_depth example_env root_heap 1%positive root_Logger 0
              eq_refl Hskip)
    as (ll & h' & Hrun & Hframe & _).
  exists ll, h'. split; [exact Hrun|].
  exact (eq_trans (Hframe _ eq_refl) eq_refl).
Defined.

(** ** Emission through derived configurations *)

Lemma emit_at_level_Done env h l L p sl received lvl message :
  loggers h !! l = Some L → newLogger L = Some p →
  stdlogs h !! p = Some sl → sinks h !! out sl = Some received →
  defined_level lvl →
  ∃ h',
    emit_at_level lvl env l message h = Done tt h' ∧
    sinks h'
    = <[out sl := received ++
          [log_line env sl
             (default ""
                (json.encode_object (arrays h) (record env h (put_level lvl L) message)))]]>
        (sinks h).
Proof.
  intros Hl Hp Hsl Hw Hdef. rewrite /emit_at_level.
  rewrite (mbind_Done _ _ h _ _ (WithLevel_Done h l L lvl Hl)).
  set (ll := fresh (dom (loggers h))). set (L' := put_level lvl L).
  set (h0 := set_loggers (insert ll L') h).
  assert (loggers h0 !! ll = Some L') as Hll by apply lookup_insert_eq.
  destruct (Output_defined_level env h0 ll L' p sl received message Hll Hp Hsl Hw Hdef)
    as (h' & Hrun & Hsinks & _).
  exists h'. split; [exact Hrun|].
  rewrite (serialized_record env h0 ll L' message Hll) in Hsinks. exact Hsinks.
Qed.

Lemma variadic_call_emit fmt_Sprint sev env l v :
  variadic_call fmt_Sprint sev env l v
  = emit_at_level (Severity_level sev) env l (fmt_Sprint v).
Proof. destruct sev; reflexivity. Qed.

(** X13. Every configuration derived from a configuration C, through
    any chain of derivation methods, logs to C's writer: a leveled call
    on the end of the chain returns after one [Write] to the writer of
    C's line writer, with C's prefix and flags, and no other writer
    receives anything. *)
Theorem derived_configuration_shares_writer fmt_Sprint env h l L p sl received ds sev v :
  loggers h !! l = Some L → newLogger L = Some p →
  stdlogs h !! p = Some sl → sinks h !! out sl = Some received →
  ∃ d h1 h2 text,
    derive_chain ds l h = Done d h1 ∧
    variadic_call fmt_Sprint sev env d v h1 = Done tt h2 ∧
    sinks h2 = <[out sl := received ++ [log_line env sl text]]> (sinks h).
Proof.
  intros Hl Hp Hsl Hw.
  destruct (derive_chain_Done ds h l L Hl)
    as (d & h1 & L1 & Hchain & Hd & _ & Hnew & _ & _ & Hstd & Hsnk).
  rewrite Hp in Hnew. rewrite -Hstd in Hsl. rewrite -Hsnk in Hw.
  destruct (emit_at_level_Done env h1 d L1 p sl received (Severity_level sev)
              (fmt_Sprint v) Hd Hnew Hsl Hw (Severity_level_defined sev))
    as (h2 & Hrun & Hsinks).
  eexists d, h1, h2, _. split; [exact Hchain|].
  split; [rewrite variadic_call_emit; exact Hrun|].
  rewrite Hsinks Hsnk. reflexivity.
Qed.

Lemma derived_configuration_shares_writer_witness :
  loggers root_heap !! 1%positive = Some root_Logger ∧
  stdlogs root_heap !! 1%positive = Some root_StdLogger ∧
  sinks root_heap !! 1%positive = Some [] ∧
  ∃ d h1 h2 text,
    derive_chain [DFields {[ "service" := VString "auth" ]}; DCaller example_env 1]
      1%positive root_heap = Done d h1 ∧
    Error (λ _, "db timeout") example_env d [] h1 = Done tt h2 ∧
    sinks h2 = <[1%positive := [log_line example_env root_StdLogger text]]> (sinks root_heap).
Proof.
  do 3 (split; [reflexivity|]).
  exact (derived_configuration_shares_writer (λ _, "db timeout") example_env root_heap
           1%positive root_Logger 1%positive root_StdLogger []
           [DFields {[ "service" := VString "auth" ]}; DCaller example_env 1] SError []
           eq_refl eq_refl eq_refl eq_refl).
Defined.

(** X14. The level a configuration has been given by [WithLevel] does not
    show in what its leveled calls write: the call of a severity on
    [WithLevel(x)] of C hands the writer the same line as that call on C
    itself, for every [x], one of the six constants or not. *)
Theorem leveled_call_overrides_level fmt_Sprint env h l L p sl received x sev v :
  loggers h !! l = Some L → newLogger L = Some p →
  stdlogs h !! p = Some sl → sinks h !! out sl = Some received →
  ∃ d h1 h2 h3,
    WithLevel l x h = Done d h1 ∧
    variadic_call fmt_Sprint sev env d v h1 = Done tt h2 ∧
    variadic_call fmt_Sprint sev env l v h = Done tt h3 ∧
    sinks h2 = sinks h3.
Proof.
  intros Hl Hp Hsl Hw.
  set (d := fresh (dom (loggers h))).
  set (h1 := set_loggers (insert d (put_level x L)) h).
  assert (loggers h1 !! d = Some (put_level x L)) as Hd by apply lookup_insert_eq.
  destruct (emit_at_level_Done env h1 d (put_level x L) p sl received (Severity_level sev)
              (fmt_Sprint v) Hd Hp Hsl Hw (Severity_level_defined sev))
    as (h2 & Hrun2 & Hsinks2).
  destruct (emit_at_level_Done env h l L p sl received (Severity_level sev)
              (fmt_Sprint v) Hl Hp Hsl Hw (Severity_level_defined sev))
    as (h3 & Hrun3 & Hsinks3).
  exists d, h1, h2, h3. split; [exact (WithLevel_Done h l L x Hl)|].
  rewrite !variadic_call_emit. split; [exact Hrun2|]. split; [exact Hrun3|].
  rewrite Hsinks2 Hsinks3. reflexivity.
Qed.

Lemma leveled_call_overrides_level_witness :
  loggers root_heap !! 1%positive = Some root_Logger ∧
  stdlogs root_heap !! 1%positive = Some root_StdLogger ∧
  sinks root_heap !! 1%positive = Some [] ∧
  ∃ d h1 h2 h3,
    WithLevel 1%positive 9 root_heap = Done d h1 ∧
    Info (λ _, "listening") example_env d [] h1 = Done tt h2 ∧
    Info (λ _, "listening") example_env 1%positive [] root_heap = Done tt h3 ∧
    sinks h2 = sinks h3.
Proof.
  do 3 (split; [reflexivity|]).
  exact (leveled_call_overrides_level (λ _, "listening") example_env root_heap
           1%positive root_Logger 1%positive root_StdLogger [] 9 SInfo []
           eq_refl eq_refl eq_refl eq_refl).
Defined.

(** X15. The context of a configuration never shows: the configuration
    [WithContext(c)] returns serializes to the same text as the receiver,
    for every message, and has the receiver's level, field set and caller
    sequence. *)
Theorem WithContext_never_shows env h l L c message :
  loggers h !! l = Some L →
  ∃ ll h',
    WithContext l c h = Done ll h' ∧
    serialized env ll message h' = serialized env l message h ∧
    level <$> (loggers h' !! ll) = Some (level L) ∧
    field_set h' ll = field_set h l ∧
    caller_seq h' ll = caller_seq h l.
Proof.
  intros Hl.
  set (ll := fresh (dom (loggers h))).
  set (h' := set_loggers (insert ll (put_ctx c L)) h).
  assert (loggers h' !! ll = Some (put_ctx c L)) as Hll by apply lookup_insert_eq.
  exists ll, h'. split; [exact (WithContext_Done h l L c Hl)|].
  split.
  { rewrite (serialized_record env h' ll _ message Hll)
      (serialized_record env h l L message Hl). reflexivity. }
  rewrite /field_set /caller_seq Hll Hl. repeat split; reflexivity.
Qed.

Lemma WithContext_never_shows_witness :
  loggers service_heap !! 2%positive = Some service_Logger ∧
  ∃ ll h',
    WithContext 2%positive (Some 7) service_heap = Done ll h' ∧
    serialized example_env ll "hello" h' = Some hello_body.
Proof.
  split; [reflexivity|].
  destruct (WithContext_never_shows example_env service_heap 2%positive service_Logger
              (Some 7) "hello" eq_refl)
    as (ll & h' & Hrun & Hsame & _).
  exists ll, h'. split; [exact Hrun|]. rewrite Hsame. vm_compute. reflexivity.
Defined.

(** ** Derivation and record together *)

(** X16. The record of the configuration [WithFields(f)] returns: under
    every key that is not reserved it has what [f] laid over the
    receiver's field set has, and under [message] it has the message,
    whatever [f] holds under that key. *)
Theorem WithFields_then_JSONFormat env h l L f message :
  loggers h !! l = Some L →
  ∃ ll h1 data h2,
    WithFields l f h = Done ll h1 ∧
    JSONFormat env ll message h1 = Done data h2 ∧
    (∀ k, ¬ reserved_key k →
          map_view h2 (Some data) !! k = (f ∪ field_set h l) !! k) ∧
    map_view h2 (Some data) !! "message" = Some (VString message).
Proof.
  intros Hl. destruct (WithFields_Done h l L f Hl)
    as (h1 & Hrun & Hlog & _ & _ & _ & Hview & _).
  set (ll := fresh (dom (loggers h))) in *.
  set (L' := put_fields (Some (default (fresh (dom (maps h))) (fields L))) L) in *.
  assert (loggers h1 !! ll = Some L') as Hll by (rewrite Hlog; apply lookup_insert_eq).
  eexists ll, h1, _, _. split; [exact Hrun|].
  split; [exact (JSONFormat_Done env h1 ll L' message Hll)|].
  rewrite /map_view maps_set_maps_insert. cbn [default]. split.
  - intros k Hk. rewrite record_lookup reserved_other //.
    rewrite /field_set Hl -Hview. reflexivity.
  - rewrite record_lookup reserved_message. reflexivity.
Qed.

Lemma WithFields_then_JSONFormat_witness :
  loggers service_heap !! 2%positive = Some service_Logger ∧
  ∃ ll h1 data h2,
    WithFields 2%positive {[ "region" := VString "eu" ]} service_heap = Done ll h1 ∧
    JSONFormat example_env ll "hello" h1 = Done data h2 ∧
    map_view h2 (Some data) !! "region" = Some (VString "eu") ∧
    map_view h2 (Some data) !! "service" = Some (VString "auth").
Proof.
  split; [reflexivity|].
  destruct (WithFields_then_JSONFormat example_env service_heap 2%positive service_Logger
              {[ "region" := VString "eu" ]} "hello" eq_refl)
    as (ll & h1 & data & h2 & Hrun & Hformat & Hfields & _).
  assert (∀ k, k = "region" ∨ k = "service" → ¬ reserved_key k) as Hfree.
  { intros k [-> | ->] [H | [H | [H | H]]]; discriminate H. }
  exists ll, h1, data, h2. split; [exact Hrun|]. split; [exact Hformat|]. split.
  - rewrite (Hfields "region" (Hfree _ (or_introl eq_refl))). vm_compute. reflexivity.
  - rewrite (Hfields "service" (Hfree _ (or_intror eq_refl))). vm_compute. reflexivity.
Defined.

(** X17. What a derivation method leaves alone. [WithFields] makes no
    array and the derived configuration has the receiver's caller
    sequence; [WithCaller] and [WithCallersFrames] touch no map object
    and the derived configuration has the receiver's field set;
    [WithLevel] and [WithContext] do both. *)
Theorem derive_keeps_other_members d h l L :
  loggers h !! l = Some L →
  ∃ ll h',
    derive d l h = Done ll h' ∧
    match d with
    | DFields _ => arrays h' = arrays h ∧ caller_seq h' ll = caller_seq h l
    | DCaller _ _ | DCallersFrames _ =>
        maps h' = maps h ∧ field_set h' ll = field_set h l
    | DLevel _ | DContext _ =>
        arrays h' = arrays h ∧ caller_seq h' ll = caller_seq h l ∧
        maps h' = maps h ∧ field_set h' ll = field_set h l
    end.
Proof.
  intros Hl. destruct d as [lvl|f|c|env skip|env]; cbn [derive].
  - eexists _, _. split; [exact (WithLevel_Done h l L lvl Hl)|].
    rewrite /caller_seq /field_set /= lookup_insert_eq Hl. repeat split; reflexivity.
  - destruct (WithFields_Done h l L f Hl) as (h' & Hrun & Hlog & _ & Harr & _).
    eexists _, h'. split; [exact Hrun|]. split; [exact Harr|].
    rewrite /caller_seq Hlog lookup_insert_eq Hl Harr. reflexivity.
  - eexists _, _. split; [exact (WithContext_Done h l L c Hl)|].
    rewrite /caller_seq /field_set /= lookup_insert_eq Hl. repeat split; reflexivity.
  - destruct (runtime_Caller env skip) as [[[pc file] line] [|]] eqn:Hc.
    + eexists _, _.
      split; [exact (WithCaller_Done_frame env h l L skip pc file line Hl Hc)|].
      rewrite /field_set /= lookup_insert_eq Hl. split; reflexivity.
    + eexists _, _.
      split; [exact (WithCaller_Done_no_frame env h l L skip pc file line Hl Hc)|].
      rewrite /field_set /= lookup_insert_eq Hl. split; reflexivity.
  - eexists _, _. split; [exact (WithCallersFrames_Done env h l L Hl)|].
    rewrite /field_set /= lookup_insert_eq Hl. split; reflexivity.
Qed.

Lemma derive_keeps_other_members_witness :
  loggers service_heap !! 2%positive = Some service_Logger ∧
  ∃ ll h',
    derive (DCallersFrames example_env) 2%positive service_heap = Done ll h' ∧
    maps h' = maps service_heap ∧
    field_set h' ll = field_set service_heap 2%positive.
Proof.
  split; [reflexivity|].
  exact (derive_keeps_other_members (DCallersFrames example_env) service_heap 2%positive
           service_Logger eq_refl).
Defined.
